(** * Torn-page matcher: a shallow embedding of [tear_comparer.py]

    The development follows the source file top to bottom:

    - [Py]: the fragment of Python the class relies on (exceptions, results,
      insertion-ordered dictionaries, name lookup);
    - [Np]: the numpy operations the class calls, over IEEE-754 binary64
      (Rocq's primitive floats);
    - the class [TearCompare] itself, one definition per method, written in
      a state-and-exception monad over the object store;
    - the theorems: facts on binary64, then one group per method. *)

From Stdlib Require Import ssreflect ZArith Floats Sorted.
From stdpp Require Import base option list gmap strings.
From Stdlib Require Uint63.

#[local] Set Warnings "-rewrite-rw".
Local Open Scope Z_scope.

(* ===================================================================== *)
(** ** Python: exceptions, results, dictionaries *)
(* ===================================================================== *)

Module Py.

(** The exceptions that can leave a method of the class.  The first group
    is what CPython, numpy and OpenCV raise on the paths of the source; the
    second group is the taxonomy used by the specification, which the
    source never raises. *)
Inductive exn : Type :=
| AttributeError
| NameError
| UnboundLocalError
| ValueError
| IndexError
| Cv2Error
| EmptyEdgeError
| ShapeError
| DimensionMismatchError
| PersistenceError.

Inductive result (A : Type) : Type :=
| Ok (a : A)
| Raise (e : exn).
Arguments Ok {A} a.
Arguments Raise {A} e.

#[global] Instance result_ret : MRet result := λ A a, Ok a.

#[global] Instance result_bind : MBind result := λ A B k r,
  match r with
  | Ok a => k a
  | Raise e => Raise e
  end.

(** [for x in xs: ys.append(f(x))] where [f] may raise. *)
Fixpoint rmap {A B} (f : A → result B) (xs : list A) : result (list B) :=
  match xs with
  | [] => Ok []
  | x :: xs' =>
      y ← f x; ys ← rmap f xs'; Ok (y :: ys)
  end.

(** A [dict] keeps its keys in insertion order; assigning to a key that
    is present replaces the value where it stands. *)
Definition dict (V : Type) : Type := list (string * V).

Fixpoint get {V} (d : dict V) (k : string) : option V :=
  match d with
  | [] => None
  | (k', v) :: d' => if String.eqb k k' then Some v else get d' k
  end.

Fixpoint set {V} (d : dict V) (k : string) (v : V) : dict V :=
  match d with
  | [] => [(k, v)]
  | (k', v') :: d' =>
      if String.eqb k k' then (k', v) :: d' else (k', v') :: set d' k v
  end.

Definition keys {V} (d : dict V) : list string := map fst d.

Definition contains {V} (d : dict V) (k : string) : bool :=
  bool_decide (is_Some (get d k)).

(** [range(n)] *)
Definition range (n : Z) : list nat := seq 0 (Z.to_nat n).

End Py.

Import Py.

(* ===================================================================== *)
(** ** numpy over binary64 *)
(* ===================================================================== *)

Module Np.

(** The arrays of the source are one-dimensional [float64] arrays, here
    lists of binary64 numbers; index arrays are lists of naturals.  The
    element-wise operations are the IEEE-754 ones, correctly rounded. *)

Definition nan : float := PrimFloat.div 0 0.

(** An integer as a [float64]: the nearest binary64, for magnitudes below
    2^63. *)
Definition of_Z (z : Z) : float :=
  if z <? 0
  then PrimFloat.opp (PrimFloat.of_uint63 (Uint63.of_Z (- z)))
  else PrimFloat.of_uint63 (Uint63.of_Z z).

Definition of_nat (n : nat) : float := of_Z (Z.of_nat n).

Definition isnan (x : float) : bool := PrimFloat.is_nan x.

(** [z.nonzero()[0]]: the positions of the [True] entries of a mask. *)
Fixpoint nonzero_from (i : nat) (mask : list bool) : list nat :=
  match mask with
  | [] => []
  | b :: mask' =>
      if b then i :: nonzero_from (S i) mask' else nonzero_from (S i) mask'
  end.

Definition nonzero (mask : list bool) : list nat := nonzero_from 0 mask.

(** [np.where(col == v)]: the positions at which [col] holds [v]. *)
Definition where_eq (col : list Z) (v : Z) : list nat :=
  nonzero (map (Z.eqb v) col).

(** [add.reduce], read left to right from 0.  (numpy adds in this order up
    to 8 entries and blockwise beyond, which can round differently; the
    theorems below hold whatever the order.) *)
Definition sum (a : list float) : float :=
  fold_left PrimFloat.add a 0%float.

(** [a.mean()]: the sum over the number of entries; [nan] for no entry. *)
Definition mean (a : list float) : float :=
  PrimFloat.div (sum a) (of_nat (length a)).

(** [np.around(x)] with no decimals is [rint]: round to the nearest
    integer, halves to even.  Below 2^52 adding and removing 2^52 rounds
    the magnitude that way; from 2^52 on every binary64 is an integer. *)
Definition two52 : float := 0x1p52%float.

Definition around (x : float) : float :=
  if PrimFloat.is_zero x then x
  else if PrimFloat.ltb (PrimFloat.abs x) two52
  then
    let r := PrimFloat.sub (PrimFloat.add (PrimFloat.abs x) two52) two52 in
    if PrimFloat.ltb x 0 then PrimFloat.opp r else r
  else x.

(** [a[mask]]: the entries of [a] selected by a boolean mask. *)
Fixpoint select {A} (a : list A) (mask : list bool) : list A :=
  match a, mask with
  | x :: a', b :: mask' => if b then x :: select a' mask' else select a' mask'
  | _, _ => []
  end.

(** [a[mask] = vals]: the selected entries are replaced by [vals], in
    order. *)
Fixpoint put_mask {A} (a : list A) (mask : list bool) (vals : list A)
  : list A :=
  match a, mask with
  | x :: a', b :: mask' =>
      if b then
        match vals with
        | v :: vals' => v :: put_mask a' mask' vals'
        | [] => x :: put_mask a' mask' []
        end
      else x :: put_mask a' mask' vals
  | _, _ => a
  end.

(** *** [np.interp]

    The sample positions [xp] are increasing, as those the source passes.
    [search key arr] is the bracket the compiled routine looks for: [-1]
    below the first sample, [len] above the last one, otherwise the [j]
    with [arr[j] <= key < arr[j+1]]. *)
Fixpoint linear_search (key : nat) (arr : list nat) (i : Z) : Z :=
  match arr with
  | [] => i
  | a :: arr' =>
      if (a <=? key)%nat then linear_search key arr' (i + 1) else i
  end.

Definition search (key : nat) (arr : list nat) : Z :=
  match head arr, last arr with
  | Some lo, Some hi =>
      if (hi <? key)%nat then Z.of_nat (length arr)
      else if (key <? lo)%nat then -1
      else linear_search key (tail arr) 1 - 1
  | _, _ => -1
  end.

(** The line through [(xj, yj)] and [(xk, yk)], read at [x].  When the
    product with the slope is not a number the routine retries from the
    right end, and settles for [yj] when both ends agree. *)
Definition lerp (xj : nat) (yj : float) (xk : nat) (yk : float) (x : nat)
  : float :=
  let slope :=
    PrimFloat.div (PrimFloat.sub yk yj)
                  (PrimFloat.sub (of_nat xk) (of_nat xj)) in
  let r :=
    PrimFloat.add (PrimFloat.mul slope (PrimFloat.sub (of_nat x) (of_nat xj)))
                  yj in
  if isnan r then
    let r' :=
      PrimFloat.add
        (PrimFloat.mul slope (PrimFloat.sub (of_nat x) (of_nat xk))) yk in
    if isnan r' && PrimFloat.eqb yj yk then yj else r'
  else r.

Definition at_ (fp : list float) (j : Z) : float :=
  nth (Z.to_nat j) fp nan.

Definition at_x (xp : list nat) (j : Z) : nat :=
  nth (Z.to_nat j) xp 0%nat.

(** The value on the segment that starts at sample [j]. *)
Definition segment (xp : list nat) (fp : list float) (j : Z) (x : nat)
  : float :=
  lerp (at_x xp j) (at_ fp j) (at_x xp (j + 1)) (at_ fp (j + 1)) x.

Definition interp_point (xp : list nat) (fp : list float) (x : nat)
  : float :=
  let len := Z.of_nat (length xp) in
  let j := search x xp in
  if j =? -1 then at_ fp 0
  else if j =? len then at_ fp (len - 1)
  else if j =? len - 1 then at_ fp j
  else if (at_x xp j =? x)%nat then at_ fp j
  else segment xp fp j x.

Definition interp (x xp : list nat) (fp : list float)
  : result (list float) :=
  if bool_decide (length xp = 0%nat) then Raise ValueError
  else if bool_decide (length fp ≠ length xp) then Raise ValueError
  else Ok (map (interp_point xp fp) x).

(** [a - b] on one-dimensional arrays, with numpy's broadcasting of a
    one-entry operand; other length mismatches raise. *)
Definition sub (a b : list float) : result (list float) :=
  if bool_decide (length a = length b) then
    Ok (zip_with PrimFloat.sub a b)
  else
    match a, b with
    | [x], _ => Ok (map (PrimFloat.sub x) b)
    | _, [y] => Ok (map (λ x, PrimFloat.sub x y) a)
    | _, _ => Raise ValueError
    end.

(** [np.linalg.norm] of a vector: the square root of its dot product with
    itself, the squares being added from left to right.  (The dot product
    is BLAS's, which may add in another order and then differ in the last
    place; what is proved of distances below does not depend on the
    order.) *)
Definition linalg_norm (a : list float) : float :=
  PrimFloat.sqrt (sum (map (λ x, PrimFloat.mul x x) a)).

(** [a.min()]: raises on an empty array, and a [nan] entry wins. *)
Definition min2 (m x : float) : float :=
  if isnan m then m
  else if isnan x then x
  else if PrimFloat.ltb x m then x else m.

Definition min (a : list float) : result float :=
  match a with
  | [] => Raise ValueError
  | x :: a' => Ok (fold_left min2 a' x)
  end.

End Np.

(** [list.index(x)]: the first position holding a value equal to [x]. *)
Fixpoint list_index (l : list float) (x : float) : result nat :=
  match l with
  | [] => Raise ValueError
  | y :: l' =>
      if PrimFloat.eqb y x then Ok 0%nat
      else i ← list_index l' x; Ok (S i)
  end.

(* ===================================================================== *)
(** ** OpenCV *)
(* ===================================================================== *)

(** The array [cv2.Canny] returns: [cols] pixels per row, every pixel 0 or
    255. *)
Record edge_map : Type := EdgeMap {
  cols : nat;
  rows : list (list Z)
}.

(** [edges[:, col_index]] *)
Definition column (edges : edge_map) (col_index : nat) : result (list Z) :=
  if bool_decide (col_index < cols edges)%nat
  then Ok (map (λ row, nth col_index row 0) (rows edges))
  else Raise IndexError.

(** The five OpenCV calls of [image_prep].  They are foreign code: the
    development is parametric in them. *)
Class Cv2 (image : Type) : Type := {
  resize : image → Z * Z → result image;
  cvtColor : image → result image;
  blur : image → Z * Z → result image;
  threshold : image → Z → Z → result image;
  Canny : image → Z → Z → result edge_map
}.

(* ===================================================================== *)
(** ** The object store *)
(* ===================================================================== *)

Definition loc : Type := nat.
Definition signature : Type := list float.

(** What a file holds: nothing yet, or what [pickle.dump] left in it.  The
    source only ever pickles the collection; [PickledMatches] is what a
    pickled Match Set would be. *)
Inductive blob : Type :=
| EmptyFile
| PickledDb (d : dict signature)
| PickledMatches (m : gmap string string).

(** An instance of the class.  [db], [prep_scale] and [matches] are the
    attributes [__init__] assigns; [db] is a reference, because the caller's
    dictionary (or the default one) is stored as it is.  [compare_with_db]
    and [compare_db] read an attribute [database] that no method assigns:
    it is present only when the caller has set it. *)
Record TearCompare : Type := Object {
  db : loc;
  database : option loc;
  prep_scale : Z * Z;
  matches : gmap string string
}.

(** Module-level names the methods read although the module binds neither:
    [os] (never imported) and [key] (in [compare_db]). *)
Record globals : Type := Globals {
  os : bool;
  key : option string
}.

Record state : Type := State {
  self : TearCompare;
  heap : gmap loc (dict signature);
  files : gmap string blob;
  module_globals : globals
}.

(** The dictionary built once, when the [def __init__] line is executed. *)
Definition default_database : loc := 0%nat.

(** The store right after the module has been imported. *)
Definition class_defined : gmap loc (dict signature) :=
  {[ default_database := [] ]}.

Definition imported : globals := {| os := false; key := None |}.

(** [TearCompare(database, prep_scale)], arguments left out being [None]. *)
Definition __init__ (database_arg : option loc)
  (prep_scale_arg : option (Z * Z)) : TearCompare :=
  {| db := default default_database database_arg;
     database := None;
     prep_scale := default (512, 512) prep_scale_arg;
     matches := ∅ |}.

(** *** State and exceptions

    A raised exception keeps the mutations made before it. *)
Definition M (A : Type) : Type := state → result A * state.

#[global] Instance M_ret : MRet M := λ A a st, (Ok a, st).

#[global] Instance M_bind : MBind M := λ A B k m st,
  match m st with
  | (Ok a, st') => k a st'
  | (Raise e, st') => (Raise e, st')
  end.

Definition lift {A} (r : result A) : M A := λ st, (r, st).

Definition get_self : M TearCompare := λ st, (Ok (self st), st).

(** [self.database] *)
Definition getattr_database : M loc := λ st,
  match database (self st) with
  | Some l => (Ok l, st)
  | None => (Raise AttributeError, st)
  end.

(** The dictionary behind a reference (references never dangle). *)
Definition deref (l : loc) : M (dict signature) := λ st,
  (Ok (heap st !!! l), st).

Definition set_heap (h : gmap loc (dict signature)) (st : state) : state :=
  State (self st) h (files st) (module_globals st).

Definition set_matches (m : gmap string string) (st : state) : state :=
  State (Object (db (self st)) (database (self st)) (prep_scale (self st)) m)
        (heap st) (files st) (module_globals st).

Definition set_files (fs : gmap string blob) (st : state) : state :=
  State (self st) (heap st) fs (module_globals st).

(** [self.db[k] = v] *)
Definition setitem_db (k : string) (v : signature) : M unit := λ st,
  let l := db (self st) in
  (Ok (), set_heap (<[l := set (heap st !!! l) k v]> (heap st)) st).

(** [self.matches[k] = v] *)
Definition setitem_matches (k v : string) : M unit := λ st,
  (Ok (), set_matches (<[k := v]> (matches (self st))) st).

Definition get_globals : M globals := λ st, (Ok (module_globals st), st).

Definition load_global_os : M unit := λ st,
  if os (module_globals st) then (Ok (), st) else (Raise NameError, st).

Fixpoint for_each {A} (xs : list A) (body : A → M unit) : M unit :=
  match xs with
  | [] => mret ()
  | x :: xs' => _ ← body x; for_each xs' body
  end.

(* ===================================================================== *)
(** ** class TearCompare *)
(* ===================================================================== *)

Section TearCompare.

Context {image : Type} `{Cv2 image}.

Definition image_prep (self : TearCompare) (img : image) : result edge_map :=
  resized ← resize img (prep_scale self);
  gray ← cvtColor resized;
  blurred ← blur gray (2, 2);
  binary ← threshold blurred 150 255;
  Canny binary 10 255.

Definition nan_helper (y : list float)
  : list bool * (list bool → list nat) :=
  (map Np.isnan y, Np.nonzero).

(** [np.around(np.mean(np.where(col==255)))] for one column. *)
Definition column_position (edges : edge_map) (col_index : nat)
  : result float :=
  col ← column edges col_index;
  Ok (Np.around (Np.mean (map Np.of_nat (Np.where_eq col 255)))).

(** The first half of [get_edge_identity_vector]: [positions] once its
    [nan] entries have been interpolated. *)
Definition interpolated_positions (self : TearCompare) (edges : edge_map)
  : result (list float) :=
  positions ← rmap (column_position edges) (range (prep_scale self).1);
  let '(nans, non_nans) := nan_helper positions in
  vals ← Np.interp (non_nans nans) (non_nans (map negb nans))
                   (Np.select positions (map negb nans));
  Ok (Np.put_mask positions nans vals).

Definition getitem (a : list float) (i : nat) : result float :=
  match a !! i with
  | Some x => Ok x
  | None => Raise IndexError
  end.

Definition get_edge_identity_vector (self : TearCompare) (edges : edge_map)
  : result signature :=
  positions ← interpolated_positions self edges;
  let mean_y_coord := Np.mean positions in
  final_array ← rmap (λ i, p ← getitem positions i;
                           Ok (PrimFloat.sub p mean_y_coord))
                     (range (prep_scale self).1);
  Ok (map (λ x, PrimFloat.div x (Np.of_Z (prep_scale self).1)) final_array).

(** The signature of a picture: [image_prep] followed by
    [get_edge_identity_vector], as the public methods start. *)
Definition extract (self : TearCompare) (img : image) : result signature :=
  edges ← image_prep self img;
  get_edge_identity_vector self edges.

(** [abs(np.linalg.norm(a - b))] *)
Definition distance (a b : signature) : result float :=
  d ← Np.sub a b;
  Ok (PrimFloat.abs (Np.linalg_norm d)).

(** The loop of [compare_with_db] over the collection: the distances and
    the keys, in iteration order. *)
Fixpoint distances (id_vector : signature) (d : dict signature)
  : result (list float * list string) :=
  match d with
  | [] => Ok ([], [])
  | (k, v) :: d' =>
      dist ← distance id_vector v;
      rest ← distances id_vector d';
      Ok (dist :: rest.1, k :: rest.2)
  end.

(** [min_dist = dist_array.min(); match_index = dist_list.index(min_dist)]:
    the position bound to [match_index], if neither call raises. *)
Definition match_index_of (dist_list : list float) : option nat :=
  match (min_dist ← Np.min dist_list; list_index dist_list min_dist) with
  | Ok match_index => Some match_index
  | Raise _ => None
  end.

(** The [try] block shared by both comparisons.  The bare [except]
    swallows whatever is raised in it; the result tells whether
    [match_index] got bound. *)
Definition record_match (name : string) (dist_list : list float)
  (keys : list string) : M (option nat) :=
  match match_index_of dist_list with
  | Some match_index =>
      match keys !! match_index with
      | Some k =>
          _ ← setitem_matches name k;
          _ ← setitem_matches k name;
          mret (Some match_index)
      | None => mret (Some match_index)
      end
  | None => mret None
  end.

Definition empty_notice : string := "Database empty, no matches found".

Definition compare_with_db (img : image) (entry_name : string)
  (add_vector_to_db : bool) : M string :=
  self ← get_self;
  edges ← lift (image_prep self img);
  id_vector ← lift (get_edge_identity_vector self edges);
  database ← getattr_database;
  d ← deref database;
  dk ← lift (distances id_vector d);
  match_index ← record_match entry_name dk.1 dk.2;
  _ ← (if add_vector_to_db then setitem_db entry_name id_vector
       else mret ());
  self ← get_self;
  d ← deref (db self);
  if bool_decide (length d ≠ 0%nat) then
    match match_index with
    | None => lift (Raise UnboundLocalError)
    | Some i =>
        match dk.2 !! i with
        | Some k => mret k
        | None => lift (Raise IndexError)
        end
    end
  else mret empty_notice.

Definition build_db (img : image) (entry_name : string) : M unit :=
  self ← get_self;
  edges ← lift (image_prep self img);
  id_vector ← lift (get_edge_identity_vector self edges);
  setitem_db entry_name id_vector.

(** The inner loop of [compare_db]. *)
Fixpoint distances_to_others (key1 : string) (v1 : signature)
  (d : dict signature) (g : option string)
  : result (list float * list string) :=
  match d with
  | [] => Ok ([], [])
  | (key2, v2) :: d' =>
      if negb (String.eqb key1 key2) then
        dist ← distance v1 v2;
        k ← (match g with Some k => Ok k | None => Raise NameError end);
        rest ← distances_to_others key1 v1 d' g;
        Ok (dist :: rest.1, k :: rest.2)
      else distances_to_others key1 v1 d' g
  end.

Definition compare_db : M unit :=
  database ← getattr_database;
  d ← deref database;
  for_each d (λ '(key1, v1),
    self ← get_self;
    if negb (bool_decide (is_Some (matches self !! key1))) then
      g ← get_globals;
      dk ← lift (distances_to_others key1 v1 d (key g));
      _ ← record_match key1 dk.1 dk.2;
      mret ()
    else mret ()).

(** [open(dict_file, 'a').close()] *)
Definition touch (dict_file : string) : M unit := λ st,
  (Ok (), set_files (match files st !! dict_file with
                     | Some _ => files st
                     | None => <[dict_file := EmptyFile]> (files st)
                     end) st).

(** [with open(dict_file, 'wb') as f: pickle.dump(obj, f, ...)] *)
Definition dump (dict_file : string) (obj : blob) : M unit := λ st,
  (Ok (), set_files (<[dict_file := obj]> (files st)) st).

(** [os.path.exists(dict_file)] *)
Definition file_present (dict_file : string) : M bool := λ st,
  (Ok (bool_decide (is_Some (files st !! dict_file))), st).

Definition os_path_exists (dict_file : string) : M bool :=
  _ ← load_global_os;
  file_present dict_file.

Definition save_db (dict_file : string) : M unit :=
  present ← os_path_exists dict_file;
  _ ← (if negb present then touch dict_file else mret ());
  self ← get_self;
  d ← deref (db self);
  dump dict_file (PickledDb d).

Definition save_matches (dict_file : string) : M unit :=
  present ← os_path_exists dict_file;
  _ ← (if negb present then touch dict_file else mret ());
  self ← get_self;
  d ← deref (db self);
  dump dict_file (PickledDb d).

(** A successful match-recording call that overwrites nothing: it returns
    a match name [k] for [entry_name], and beforehand neither of the two
    names was matched with a third one. *)
Definition fresh_pair (m : gmap string string) (n k : string) : Prop :=
  (∀ x, m !! n = Some x → x = k) ∧ (∀ x, m !! k = Some x → x = n).

Inductive match_step : state → state → Prop :=
| step_compare_with_db img entry_name add_vector_to_db st k st' :
    compare_with_db img entry_name add_vector_to_db st = (Ok k, st') →
    k ≠ empty_notice →
    fresh_pair (matches (self st)) entry_name k →
    match_step st st'.

End TearCompare.

(* ===================================================================== *)
(** ** load_db *)
(* ===================================================================== *)

Definition loaded_notice : string := "database loaded".

Definition newline : string := String (Ascii.ascii_of_nat 10) EmptyString.
Definition double_quote : string :=
  String (Ascii.ascii_of_nat 34) EmptyString.

(** The text printed when the file could not be read. *)
Definition load_error (dict_file : string) : string :=
  newline +:+ "Error: Could not load database/" +:+ newline +:+
  "No " +:+ double_quote +:+ dict_file +:+ double_quote +:+
  " dictionary found" +:+ newline.

(** [self.db = obj]: the attribute is bound to a new object. *)
Definition rebind_db (d : dict signature) (st : state) : state :=
  let l := fresh (dom (heap st)) in
  State (Object l (database (self st)) (prep_scale (self st))
                (matches (self st)))
        (<[l := d]> (heap st)) (files st) (module_globals st).

(** What [load_db] leaves.  [self.db = pickle.load(f)] binds the attribute
    to whatever object the file holds, without looking at it.  The store
    types dictionaries of signatures; a file that holds a pickled dictionary
    of names [m] (a Match Set) is loaded all the same, and then [self.db] is
    [m]: this is [DbOfNames m st], where [st] is the state the call found,
    of which everything but [self.db] is still current. *)
Inductive after_load : Type :=
| Modelled (st : state)
| DbOfNames (m : gmap string string) (st : state).

(** [load_db] never raises: whatever [open] or [pickle.load] raises is
    swallowed by the bare [except].  The value is the line it prints, with
    what it leaves.  [open] fails on a missing file and [pickle.load] on an
    empty one; whatever is unpickled becomes the new [self.db]. *)
Definition load_db (dict_file : string) (st : state)
  : string * after_load :=
  match files st !! dict_file with
  | None => (load_error dict_file, Modelled st)
  | Some EmptyFile => (load_error dict_file, Modelled st)
  | Some (PickledDb d) => (loaded_notice, Modelled (rebind_db d st))
  | Some (PickledMatches m) => (loaded_notice, DbOfNames m st)
  end.

(* ===================================================================== *)
(** ** Sequences of calls *)
(* ===================================================================== *)

Section Calls.

Context {image : Type} `{Cv2 image}.


(** One call of a public method on the instance, whatever its outcome: the
    state it leaves, whether it returned or raised.  A [load_db] that binds
    [self.db] to a dictionary of names leaves no state of the store, and is
    no step: the calls that follow one are not covered. *)
Inductive method_call : state → state → Prop :=
| call_build_db img entry_name st :
    method_call st (build_db img entry_name st).2
| call_compare_with_db img entry_name add_vector_to_db st :
    method_call st (compare_with_db img entry_name add_vector_to_db st).2
| call_compare_db st :
    method_call st (compare_db st).2
| call_load_db dict_file st msg st' :
    load_db dict_file st = (msg, Modelled st') → method_call st st'
| call_save_db dict_file st :
    method_call st (save_db dict_file st).2
| call_save_matches dict_file st :
    method_call st (save_matches dict_file st).2.

End Calls.

(* ===================================================================== *)
(** ** Vocabulary of the specification *)
(* ===================================================================== *)

(** The Match Set is symmetric when every entry has its mirror image. *)
Definition symmetric (m : gmap string string) : Prop :=
  ∀ a b, m !! a = Some b → m !! b = Some a.

(** A profile entry is defined when it is a number. *)
Definition defined (p : list float) (i : nat) : bool :=
  match p !! i with
  | Some v => negb (Np.isnan v)
  | None => false
  end.

Definition value_at (p : list float) (i : nat) : float := nth i p Np.nan.

(** [~nans]: the mask of the defined entries. *)
Definition negmask (q : list float) : list bool :=
  map negb (map Np.isnan q).

(** The nearest defined entry on either side of position [i]. *)
Definition nearest_left (p : list float) (i : nat) : option nat :=
  last (filter (λ j, defined p j) (seq 0 i)).

Definition nearest_right (p : list float) (i : nat) : option nat :=
  head (filter (λ j, defined p j) (seq (S i) (length p - S i))).

(** Gap filling as the specification words it: a defined entry stays, a gap
    between two defined entries lies on the line through them, a gap before
    the first or after the last defined entry takes that entry's value. *)
Definition fill_spec (p : list float) (i : nat) : float :=
  if defined p i then value_at p i
  else
    match nearest_left p i, nearest_right p i with
    | Some j, Some k => Np.lerp j (value_at p j) k (value_at p k) i
    | None, Some k => value_at p k
    | Some j, None => value_at p j
    | None, None => value_at p i
    end.

(** Two views used to state what a call of [compare_with_db] does: the
    Match Set after the [try] block, and what [return] hands back. *)
Definition recorded (name : string) (dist_list : list float)
  (keys : list string) (m : gmap string string) : gmap string string :=
  match match_index_of dist_list with
  | Some i =>
      match keys !! i with
      | Some k => <[k := name]> (<[name := k]> m)
      | None => m
      end
  | None => m
  end.

Definition returned (ds : list float) (ks : list string) (d : dict signature)
  : result string :=
  if bool_decide (length d ≠ 0%nat) then
    match match_index_of ds with
    | None => Raise UnboundLocalError
    | Some i =>
        match ks !! i with
        | Some k => Ok k
        | None => Raise IndexError
        end
    end
  else Ok empty_notice.

(** A state reached by touching the Match Set only, and there without
    removing a name. *)
Definition matches_grown (st st' : state) : Prop :=
  db (self st') = db (self st) ∧
  database (self st') = database (self st) ∧
  prep_scale (self st') = prep_scale (self st) ∧
  heap st' = heap st ∧ files st' = files st ∧
  module_globals st' = module_globals st ∧
  dom (matches (self st)) ⊆ dom (matches (self st')).

(** A column is blank when none of its pixels is an edge pixel. *)
Definition blank_column (edges : edge_map) (col_index : nat) : Prop :=
  Forall (λ row, nth col_index row 0 ≠ 255) (rows edges).

(** A column holds an edge when one of its pixels is an edge pixel. *)
Definition edge_in_column (edges : edge_map) (col_index : nat) : Prop :=
  Exists (λ row, nth col_index row 0 = 255) (rows edges).

(** Classes of binary64 values, on their specification: those of a given
    sign, the non-negative ones (zeros of either sign included), the
    numbers. *)
Definition SFhas_sign (s : bool) (f : spec_float) : Prop :=
  match f with
  | S754_zero s' | S754_infinity s' | S754_finite s' _ _ => s' = s
  | S754_nan => False
  end.

Definition SFnonneg (f : spec_float) : Prop :=
  match f with
  | S754_zero _ | S754_finite false _ _ | S754_infinity false => True
  | _ => False
  end.

Definition SFnot_nan (f : spec_float) : Prop :=
  match f with
  | S754_nan => False
  | _ => True
  end.

(* ===================================================================== *)
(** ** Worked inputs *)
(* ===================================================================== *)

Module Examples.

(** A stand-in for OpenCV: the picture handed in is already the edge map
    of the tear. *)
#[global] Instance passthrough : Cv2 edge_map := {|
  resize := λ img _, Ok img;
  cvtColor := Ok;
  blur := λ img _, Ok img;
  threshold := λ img _ _, Ok img;
  Canny := λ img _ _, Ok img
|}.

(** Three-column edge maps. *)
Definition slope_down : edge_map :=
  EdgeMap 3 [[255; 0; 0]; [0; 0; 0]; [0; 0; 255]].
Definition slope_up : edge_map :=
  EdgeMap 3 [[0; 0; 255]; [0; 0; 0]; [255; 0; 0]].
Definition flat_top : edge_map :=
  EdgeMap 3 [[255; 0; 0]; [0; 0; 0]; [0; 0; 0]].
Definition step_right : edge_map :=
  EdgeMap 3 [[255; 255; 0]; [0; 0; 0]; [0; 0; 255]].
Definition all_black : edge_map :=
  EdgeMap 3 [[0; 0; 0]; [0; 0; 0]; [0; 0; 0]].

(** The edge pixels of [flat_top] in its first three columns, among other
    grey levels, with a fourth column and a fourth row. *)
Definition flat_top_noisy : edge_map :=
  EdgeMap 4 [[255; 7; 0; 255]; [0; 0; 100; 0]; [0; 3; 0; 0]; [9; 9; 9; 255]].

(** Five columns, of which the second and the last two hold no edge. *)
Definition gappy : edge_map :=
  EdgeMap 5 [[255; 0; 0; 0; 0]; [0; 0; 0; 0; 0]; [0; 0; 255; 0; 0]].

(** One row of 512 edge pixels, for the default processing size. *)
Definition wide_line : edge_map := EdgeMap 512 [replicate 512 255].

(** [TearCompare(prep_scale=(3,3))]: the collection is the default
    dictionary. *)
Definition small : TearCompare := __init__ None (Some (3, 3)).

(** The same object after the caller has run [t.database = t.db]. *)
Definition small_patched : TearCompare :=
  Object (db small) (Some (db small)) (prep_scale small) (matches small).

Definition fresh (t : TearCompare) : state :=
  State t class_defined ∅ imported.

Definition after {A} (m : M A) (st : state) : state := (m st).2.

End Examples.

(* ===================================================================== *)
(** ** Results about results and loops *)
(* ===================================================================== *)

Lemma rmap_length {A B} (f : A → result B) xs ys :
  rmap f xs = Ok ys → length ys = length xs.
Proof.
  revert ys. induction xs as [|x xs IH]; intros ys; simpl.
  - by intros [= <-].
  - destruct (f x) as [y|]; simpl; [|done].
    destruct (rmap f xs) as [ys'|]; simpl; [|done].
    intros [= <-]. simpl. f_equal. by apply IH.
Qed.

Lemma put_mask_length {A} (a : list A) mask vals :
  length (Np.put_mask a mask vals) = length a.
Proof.
  revert mask vals. induction a as [|x a IH]; intros [|[] mask] vals;
    simpl; try done.
  - destruct vals; simpl; by rewrite IH.
  - by rewrite IH.
Qed.

Lemma getitem_middle (pre l : list float) x :
  getitem (pre ++ x :: l) (length pre) = Ok x.
Proof.
  unfold getitem. rewrite lookup_app_r; [lia|].
  by rewrite Nat.sub_diag.
Qed.

(** Reading a list back entry by entry. *)
Lemma rmap_getitem (f : float → float) (pre l : list float) :
  rmap (λ i, p ← getitem (pre ++ l) i; Ok (f p))
       (seq (length pre) (length l))
  = Ok (map f l).
Proof.
  revert pre. induction l as [|x l IH]; intros pre; simpl; [done|].
  rewrite getitem_middle. simpl.
  specialize (IH (pre ++ [x])).
  rewrite length_app in IH. simpl in IH.
  rewrite Nat.add_1_r -app_assoc in IH. simpl in IH.
  by rewrite IH.
Qed.

(* ===================================================================== *)
(** ** Binary64: when an operation yields a number *)
(* ===================================================================== *)

(** *** Shifting and rounding a mantissa *)

Lemma shr_1_half r : 0 ≤ shr_m r → shr_m (shr_1 r) = shr_m r / 2.
Proof.
  destruct r as [m r s].
  destruct m as [|[p|p|]|p]; cbn [shr_1 shr_m]; intros Hm.
  - reflexivity.
  - apply Z.div_unique with 1; lia.
  - apply Z.div_unique with 0; lia.
  - reflexivity.
  - lia.
Qed.

Lemma iter_pos_nat {A} (f : A → A) p x :
  SpecFloat.iter_pos f p x = Nat.iter (Pos.to_nat p) f x.
Proof.
  revert x. induction p as [p IH|p IH|]; intros x; cbn [SpecFloat.iter_pos].
  - rewrite !IH Pos2Nat.inj_xI.
    replace (S (2 * Pos.to_nat p)) with (S (Pos.to_nat p + Pos.to_nat p))
      by lia.
    by rewrite Nat.iter_succ_r Nat.iter_add.
  - rewrite !IH Pos2Nat.inj_xO.
    replace (2 * Pos.to_nat p)%nat with (Pos.to_nat p + Pos.to_nat p)%nat
      by lia.
    by rewrite Nat.iter_add.
  - reflexivity.
Qed.

Lemma iter_shr_1 n r :
  0 ≤ shr_m r → shr_m (Nat.iter n shr_1 r) = shr_m r / 2 ^ Z.of_nat n.
Proof.
  intros Hr. induction n as [|n IH].
  - simpl. by rewrite Z.div_1_r.
  - assert (0 < 2 ^ Z.of_nat n) by (apply Z.pow_pos_nonneg; lia).
    rewrite Nat2Z.inj_succ Z.pow_succ_r; [lia|].
    rewrite Nat.iter_succ shr_1_half.
    + rewrite IH. apply Z.div_pos; lia.
    + rewrite IH Z.div_div; [lia..|]. f_equal. lia.
Qed.

Lemma shr_m_shr r e n :
  0 ≤ shr_m r →
  shr_m (shr r e n).1 = shr_m r / 2 ^ Z.max n 0 ∧
  (shr r e n).2 = e + Z.max n 0.
Proof.
  intros Hr. destruct n as [|p|p]; simpl.
  - rewrite Z.div_1_r. lia.
  - rewrite iter_pos_nat iter_shr_1; [done|].
    rewrite positive_nat_Z. split; [reflexivity|lia].
  - rewrite Z.div_1_r. lia.
Qed.

Lemma shr_m_of_loc m l : shr_m (shr_record_of_loc m l) = m.
Proof. by destruct l as [|[]]. Qed.

Lemma digits2_pos_size p : digits2_pos p = Pos.size p.
Proof. induction p as [p IH|p IH|]; simpl; by rewrite ?IH. Qed.

(** [Zdigits2 m] is the number of binary digits of [m]. *)
Lemma Zdigits2_bounds m :
  0 < m → 0 < Zdigits2 m ∧ 2 ^ (Zdigits2 m - 1) ≤ m < 2 ^ Zdigits2 m.
Proof.
  destruct m as [|p|p]; try lia. intros _. cbn [Zdigits2].
  rewrite digits2_pos_size.
  pose proof (Pos.size_gt p) as Hgt. pose proof (Pos.size_le p) as Hle.
  apply Pos2Z.pos_lt_pos in Hgt. apply Pos2Z.pos_le_pos in Hle.
  rewrite Pos2Z.inj_pow in Hgt. rewrite Pos2Z.inj_pow in Hle.
  change (Z.pos p~0) with (2 * Z.pos p) in Hle.
  split; [lia|]. split; [|exact Hgt].
  assert (2 ^ Z.pos (Pos.size p) = 2 * 2 ^ (Z.pos (Pos.size p) - 1)) as Hpow.
  { rewrite -Z.pow_succ_r; [lia|]. f_equal. lia. }
  lia.
Qed.

(** Shifting the digits beyond the 53rd away leaves exactly 53 digits. *)
Lemma normalised_bounds m :
  0 < m → 53 ≤ Zdigits2 m →
  2 ^ 52 ≤ m / 2 ^ (Zdigits2 m - 53) < 2 ^ 53.
Proof.
  intros Hm Hd. destruct (Zdigits2_bounds m Hm) as [_ [Hlo Hhi]].
  assert (0 < 2 ^ (Zdigits2 m - 53)) as Hpos by (apply Z.pow_pos_nonneg; lia).
  split.
  - apply Z.div_le_lower_bound; [exact Hpos|].
    rewrite -Z.pow_add_r; [lia..|].
    by replace (Zdigits2 m - 53 + 52) with (Zdigits2 m - 1) by lia.
  - apply Z.div_lt_upper_bound; [exact Hpos|].
    rewrite -Z.pow_add_r; [lia..|].
    by replace (Zdigits2 m - 53 + 53) with (Zdigits2 m) by lia.
Qed.

Lemma digits_of_bounds m lo hi :
  0 ≤ lo → 2 ^ lo ≤ m < 2 ^ hi → lo < Zdigits2 m ≤ hi.
Proof.
  intros Hlo [Hm1 Hm2].
  assert (0 < m) as Hm by (pose proof (Z.pow_pos_nonneg 2 lo); lia).
  destruct (Zdigits2_bounds m Hm) as [Hd [Hb1 Hb2]].
  split.
  - apply (Z.pow_lt_mono_r_iff 2); lia.
  - assert (Zdigits2 m - 1 < hi); [|lia].
    apply (Z.pow_lt_mono_r_iff 2); try lia.
    destruct (Z.le_gt_cases 0 hi); [done|].
    rewrite (Z.pow_neg_r 2 hi) in Hm2; lia.
Qed.

Lemma shr_fexp_normalised m e l :
  2 ^ 52 ≤ m < 2 ^ 70 → -1000 ≤ e →
  2 ^ 52 ≤ shr_m (shr_fexp prec emax m e l).1 < 2 ^ 53 ∧
  e ≤ (shr_fexp prec emax m e l).2 ≤ e + 17.
Proof.
  intros Hm He.
  assert (0 < m) as Hpos by lia.
  destruct (digits_of_bounds m 52 70 ltac:(lia) Hm) as [Hd1 Hd2].
  unfold shr_fexp.
  assert (fexp prec emax (Zdigits2 m + e) - e = Zdigits2 m - 53) as ->.
  { unfold fexp, emin, prec, emax. lia. }
  pose proof (shr_m_shr (shr_record_of_loc m l) e (Zdigits2 m - 53)) as Hshr.
  rewrite shr_m_of_loc in Hshr. destruct (Hshr ltac:(lia)) as [-> ->].
  rewrite Z.max_l; [lia|].
  split; [apply normalised_bounds; lia|lia].
Qed.

Lemma shr_fexp_nonneg m e l :
  0 ≤ m → 0 ≤ shr_m (shr_fexp prec emax m e l).1.
Proof.
  intros Hm. unfold shr_fexp.
  pose proof (shr_m_shr (shr_record_of_loc m l) e
                (fexp prec emax (Zdigits2 m + e) - e)) as Hshr.
  rewrite shr_m_of_loc in Hshr. destruct (Hshr Hm) as [-> _].
  apply Z.div_pos; [exact Hm|]. apply Z.pow_pos_nonneg; lia.
Qed.

Lemma round_nearest_even_bounds m l :
  m ≤ round_nearest_even m l ≤ m + 1.
Proof. destruct l as [|[]]; cbn; try lia. destruct (Z.even m); lia. Qed.

(** Rounding a mantissa of at least 53 digits at a moderate exponent gives a
    finite number. *)
Lemma binary_round_aux_finite s m e l :
  2 ^ 52 ≤ m < 2 ^ 69 → -1000 ≤ e ≤ 900 →
  ∃ m' e', binary_round_aux prec emax s m e l = S754_finite s m' e'.
Proof.
  intros Hm He. unfold binary_round_aux.
  pose proof (shr_fexp_normalised m e l ltac:(lia) ltac:(lia)) as H1.
  destruct (shr_fexp prec emax m e l) as [mrs1 e1]. destruct H1 as [Hm1 He1].
  cbn [fst snd] in Hm1, He1.
  pose proof (round_nearest_even_bounds (shr_m mrs1) (loc_of_shr_record mrs1))
    as Hr.
  pose proof (shr_fexp_normalised
                (round_nearest_even (shr_m mrs1) (loc_of_shr_record mrs1))
                e1 loc_Exact ltac:(lia) ltac:(lia)) as H2.
  destruct (shr_fexp prec emax _ e1 loc_Exact) as [mrs2 e2].
  destruct H2 as [Hm2 He2]. cbn [fst snd] in Hm2, He2.
  destruct (shr_m mrs2) as [|p|p]; try lia.
  assert ((e2 <=? emax - prec) = true) as ->.
  { apply Z.leb_le. unfold emax, prec. lia. }
  by exists p, e2.
Qed.

(** Rounding a non-negative mantissa never gives [nan], and keeps the
    sign. *)
Lemma binary_round_aux_sign s m e l :
  0 ≤ m → SFhas_sign s (binary_round_aux prec emax s m e l).
Proof.
  intros Hm. unfold binary_round_aux.
  pose proof (shr_fexp_nonneg m e l Hm) as H1.
  destruct (shr_fexp prec emax m e l) as [mrs1 e1]. cbn [fst] in H1.
  pose proof (round_nearest_even_bounds (shr_m mrs1) (loc_of_shr_record mrs1))
    as Hr.
  pose proof (shr_fexp_nonneg
                (round_nearest_even (shr_m mrs1) (loc_of_shr_record mrs1))
                e1 loc_Exact ltac:(lia)) as H2.
  destruct (shr_fexp prec emax _ e1 loc_Exact) as [mrs2 e2]. cbn [fst] in H2.
  destruct (shr_m mrs2) as [|p|p]; [reflexivity| |lia].
  destruct (Z.leb _ _); reflexivity.
Qed.

Lemma binary_round_sign s m e : SFhas_sign s (binary_round prec emax s m e).
Proof.
  unfold binary_round. destruct (shl_align m e _) as [mz ez].
  apply binary_round_aux_sign. lia.
Qed.

(** *** The arithmetic operations *)

Lemma SFhas_sign_nonneg f : SFhas_sign false f → SFnonneg f.
Proof.
  destruct f as [[]|[]| |[] m e]; cbn; intros Hs;
    try exact I; try discriminate Hs; try contradiction.
Qed.

Lemma SFhas_sign_not_nan s f : SFhas_sign s f → SFnot_nan f.
Proof. destruct f; cbn; tauto. Qed.

Lemma SFnonneg_not_nan f : SFnonneg f → SFnot_nan f.
Proof. destruct f; cbn; tauto. Qed.

Lemma binary_normalize_nonneg m e :
  0 ≤ m → SFnonneg (binary_normalize prec emax m e false).
Proof.
  destruct m as [|p|p]; cbn [binary_normalize]; intros Hm; try lia.
  - exact I.
  - apply SFhas_sign_nonneg, binary_round_sign.
Qed.

Lemma binary_normalize_not_nan m e :
  SFnot_nan (binary_normalize prec emax m e false).
Proof.
  destruct m as [|p|p]; cbn [binary_normalize].
  - exact I.
  - eapply SFhas_sign_not_nan, binary_round_sign.
  - eapply SFhas_sign_not_nan, binary_round_sign.
Qed.

Lemma SFadd_nonneg x y :
  SFnonneg x → SFnonneg y → SFnonneg (SFadd prec emax x y).
Proof.
  destruct x as [[]|[]| |[] mx ex], y as [[]|[]| |[] my ey];
    cbn [SFnonneg SFadd]; try tauto.
  intros _ _. apply binary_normalize_nonneg. cbn [cond_Zopp]. lia.
Qed.

(** A non-negative number minus a finite one is a number. *)
Lemma SFsub_not_nan x sy my ey :
  SFnonneg x → SFnot_nan (SFsub prec emax x (S754_finite sy my ey)).
Proof.
  destruct x as [[]|[]| |[] mx ex]; cbn [SFnonneg SFsub SFnot_nan]; try tauto.
  intros _. apply binary_normalize_not_nan.
Qed.

(** A non-negative number over a positive finite one is non-negative. *)
Lemma SFdiv_nonneg x my ey :
  SFnonneg x → SFnonneg (SFdiv prec emax x (S754_finite false my ey)).
Proof.
  destruct x as [[]|[]| |[] mx ex]; cbn [SFnonneg SFdiv xorb]; try tauto.
  intros _. unfold SFdiv_core_binary.
  match goal with |- context [Z.div_eucl ?a ?b] =>
    pose proof (Z_div_mod a b ltac:(lia)) as Hdiv;
    assert (0 ≤ a) as Ha;
    [|destruct (Z.div_eucl a b) as [q r]]
  end.
  { destruct (_ - _ - _) as [|p|p]; try lia. apply Z.shiftl_nonneg. lia. }
  apply SFhas_sign_nonneg, binary_round_aux_sign. nia.
Qed.

Lemma SFabs_nonneg f : SFnot_nan f → SFnonneg (SFabs f).
Proof. destruct f as [[]|[]| |[] m e]; cbn; tauto. Qed.

Lemma SFopp_not_nan f : SFnot_nan f → SFnot_nan (SFopp f).
Proof. destruct f; cbn; tauto. Qed.

Lemma SFeqb_refl f : SFnot_nan f → SFeqb f f = true.
Proof.
  unfold SFeqb, SFcompare.
  destruct f as [[]|[]| |[] m e]; cbn; try tauto; intros _;
    rewrite Z.compare_refl;
    change (Pos.compare_cont Eq m m) with (Pos.compare m m);
    by rewrite Pos.compare_refl.
Qed.

(** *** Comparison *)

Lemma SFltb_chain x m y :
  SFltb y m = false → SFltb x m = true → SFltb y x = false.
Proof.
  unfold SFltb, SFcompare.
  destruct x as [sx|sx| |sx mx ex], m as [sm|sm| |sm mm em],
           y as [sy|sy| |sy my ey];
    try destruct sx; try destruct sm; try destruct sy;
    try discriminate; try reflexivity;
    repeat match goal with
    | |- context [Z.compare ?a ?b] => destruct (Z.compare_spec a b); subst
    | |- context [Pos.compare_cont Eq ?a ?b] =>
        change (Pos.compare_cont Eq a b) with (Pos.compare a b);
        destruct (Pos.compare_spec a b); subst
    end; simpl; try discriminate; try reflexivity; intros; try lia.
Qed.

Lemma SFltb_irrefl x : SFltb x x = false.
Proof.
  unfold SFltb, SFcompare.
  destruct x as [[]|[]| |[] mx ex]; try reflexivity;
    rewrite Z.compare_refl;
    change (Pos.compare_cont Eq mx mx) with (Pos.compare mx mx);
    by rewrite Pos.compare_refl.
Qed.

Lemma ltb_chain x m y :
  PrimFloat.ltb y m = false → PrimFloat.ltb x m = true →
  PrimFloat.ltb y x = false.
Proof. rewrite !FloatAxioms.ltb_spec. apply SFltb_chain. Qed.

Lemma ltb_irrefl x : PrimFloat.ltb x x = false.
Proof. rewrite FloatAxioms.ltb_spec. apply SFltb_irrefl. Qed.

Lemma ltb_nan_r y m : Np.isnan m = true → PrimFloat.ltb y m = false.
Proof.
  unfold Np.isnan, PrimFloat.is_nan.
  rewrite FloatAxioms.eqb_spec FloatAxioms.ltb_spec.
  unfold SFeqb, SFltb, SFcompare.
  destruct (Prim2SF m) as [[]|[]| |[] mm em]; try discriminate;
    try (by destruct (Prim2SF y) as [?|?| |? ? ?]);
    rewrite Z.compare_refl;
    change (Pos.compare_cont Eq mm mm) with (Pos.compare mm mm);
    by rewrite Pos.compare_refl.
Qed.

(** *** Integers as floats *)

Lemma iter_xO m k : Z.pos (Pos.iter xO m k) = Z.pos m * 2 ^ Z.pos k.
Proof.
  induction k as [|k IH] using Pos.peano_ind.
  - cbn. lia.
  - rewrite Pos.iter_succ Pos2Z.inj_xO IH Pos2Z.inj_succ.
    rewrite Z.pow_succ_r; lia.
Qed.

(** A positive integer below 2^63 rounds to a finite positive float. *)
Lemma binary_round_finite m :
  Z.pos m < 2 ^ 63 →
  ∃ m' e', binary_round prec emax false m 0 = S754_finite false m' e'.
Proof.
  intros Hm. unfold binary_round.
  destruct (Zdigits2_bounds (Z.pos m) ltac:(lia)) as [Hd [Hlo Hhi]].
  cbn [Zdigits2] in Hd, Hlo, Hhi.
  set (d := Z.pos (digits2_pos m)) in *.
  assert (d ≤ 63) as Hd63.
  { assert (d - 1 < 63); [|lia]. apply (Z.pow_lt_mono_r_iff 2); lia. }
  assert (fexp prec emax (d + 0) = d - 53) as ->.
  { unfold fexp, emin, prec, emax. lia. }
  unfold shl_align. rewrite Z.sub_0_r.
  destruct (d - 53) as [|k|k] eqn:Hk.
  - apply binary_round_aux_finite; [|lia].
    replace (d - 1) with 52 in Hlo by lia. lia.
  - apply binary_round_aux_finite; [|lia].
    assert (2 ^ 52 ≤ 2 ^ (d - 1)) by (apply Z.pow_le_mono_r; lia). lia.
  - apply binary_round_aux_finite; [|lia].
    rewrite iter_xO.
    assert (Z.pos k = 53 - d) as -> by lia.
    assert (0 < 2 ^ (53 - d)) by (apply Z.pow_pos_nonneg; lia).
    assert (2 ^ (d - 1) * 2 ^ (53 - d) = 2 ^ 52) as Hlo'.
    { rewrite -Z.pow_add_r; [lia..|]. f_equal. lia. }
    assert (2 ^ d * 2 ^ (53 - d) = 2 ^ 53) as Hhi'.
    { rewrite -Z.pow_add_r; [lia..|]. f_equal. lia. }
    nia.
Qed.

Lemma of_nat_spec n :
  Prim2SF (Np.of_nat n) =
  binary_normalize prec emax (Z.of_nat n mod 2 ^ 63) 0 false.
Proof.
  unfold Np.of_nat, Np.of_Z.
  destruct (Z.ltb_spec (Z.of_nat n) 0); [lia|].
  by rewrite of_uint63_spec Uint63.of_Z_spec.
Qed.

Lemma of_nat_nonneg n : SFnonneg (Prim2SF (Np.of_nat n)).
Proof.
  rewrite of_nat_spec. apply binary_normalize_nonneg.
  apply Z.mod_pos_bound. lia.
Qed.

(** A count between 1 and 2^63 - 1 converts to a finite positive float. *)
Lemma of_nat_finite n :
  (0 < n)%nat → Z.of_nat n < 2 ^ 63 →
  ∃ m e, Prim2SF (Np.of_nat n) = S754_finite false m e.
Proof.
  intros Hpos Hlt. rewrite of_nat_spec Z.mod_small; [lia|].
  destruct (Z.of_nat n) as [|p|p] eqn:Hn; try lia.
  cbn [binary_normalize]. by apply binary_round_finite.
Qed.

(** *** Sums, means and rounded means of row indices *)

Lemma sum_nonneg l acc :
  Forall (λ x, SFnonneg (Prim2SF x)) l → SFnonneg (Prim2SF acc) →
  SFnonneg (Prim2SF (fold_left PrimFloat.add l acc)).
Proof.
  intros Hl. revert acc. induction Hl as [|x l Hx _ IH]; intros acc Hacc;
    [done|].
  cbn [fold_left]. apply IH. rewrite add_spec. by apply SFadd_nonneg.
Qed.

Lemma mean_of_indices_nonneg (idx : list nat) :
  idx ≠ [] → Z.of_nat (length idx) < 2 ^ 63 →
  SFnonneg (Prim2SF (Np.mean (map Np.of_nat idx))).
Proof.
  intros Hne Hlen. unfold Np.mean, Np.sum.
  rewrite div_spec length_map.
  destruct (of_nat_finite (length idx)) as (m & e & ->); [|done|].
  { destruct idx; [done|]. cbn [length]. lia. }
  apply SFdiv_nonneg, sum_nonneg; [|exact I].
  apply Forall_fmap, Forall_forall. intros n _. apply of_nat_nonneg.
Qed.

Lemma isnan_false x : SFnot_nan (Prim2SF x) → Np.isnan x = false.
Proof.
  intros Hx. unfold Np.isnan, PrimFloat.is_nan.
  by rewrite FloatAxioms.eqb_spec SFeqb_refl.
Qed.

(** [np.around] of a number is a number. *)
Lemma around_not_nan x :
  SFnot_nan (Prim2SF x) → Np.isnan (Np.around x) = false.
Proof.
  intros Hx. unfold Np.around.
  destruct (PrimFloat.is_zero x); [by apply isnan_false|].
  destruct (PrimFloat.ltb (PrimFloat.abs x) Np.two52); [|by apply isnan_false].
  assert (SFnot_nan (Prim2SF (PrimFloat.sub
            (PrimFloat.add (PrimFloat.abs x) Np.two52) Np.two52))) as Hr.
  { rewrite sub_spec add_spec abs_spec.
    change (Prim2SF Np.two52) with (S754_finite false 4503599627370496 0).
    apply SFsub_not_nan, SFadd_nonneg; [|exact I]. by apply SFabs_nonneg. }
  destruct (PrimFloat.ltb x 0); apply isnan_false; [|done].
  rewrite opp_spec. by apply SFopp_not_nan.
Qed.

(* ===================================================================== *)
(** ** get_edge_identity_vector *)
(* ===================================================================== *)

Lemma interpolated_positions_length self edges p :
  interpolated_positions self edges = Ok p →
  length p = Z.to_nat (prep_scale self).1.
Proof.
  unfold interpolated_positions.
  destruct (rmap _ _) as [positions|] eqn:Hpos; simpl; [|done].
  apply rmap_length in Hpos.
  destruct (Np.interp _ _ _) as [vals|]; simpl; [|done].
  intros [= <-]. rewrite put_mask_length Hpos.
  unfold range. by rewrite length_seq.
Qed.

(** The centring loop reads the whole profile back. *)
Lemma centring_loop (positions : list float) mean_y_coord :
  rmap (λ i, p ← getitem positions i; Ok (PrimFloat.sub p mean_y_coord))
       (seq 0 (length positions))
  = Ok (map (λ p, PrimFloat.sub p mean_y_coord) positions).
Proof. apply (rmap_getitem (λ p, PrimFloat.sub p mean_y_coord) []). Qed.

(** C1.  The signature is the interpolated displacement profile with its
    arithmetic mean subtracted from every entry, each entry then divided by
    the processing width [prep_scale[0]]; extraction fails exactly when the
    interpolation does. *)
Theorem signature_is_centred_profile_over_width self edges :
  get_edge_identity_vector self edges =
  filled ← interpolated_positions self edges;
  Ok (map (λ p, PrimFloat.div (PrimFloat.sub p (Np.mean filled))
                              (Np.of_Z (prep_scale self).1))
          filled).
Proof.
  unfold get_edge_identity_vector.
  destruct (interpolated_positions self edges) as [filled|] eqn:Hfill;
    simpl; [|done].
  (* the profile has one entry per column, so no index is out of range *)
  apply interpolated_positions_length in Hfill.
  unfold range. rewrite -Hfill centring_loop. simpl.
  by rewrite map_map.
Qed.

(** The divisor is the width: with a processing size of 3 by 7 the centred
    profile [-1; 0; 1] is divided by 3. *)
Example divisor_is_width :
  get_edge_identity_vector (__init__ None (Some (3, 7))) Examples.slope_down
  = Ok [PrimFloat.div (-1) 3; PrimFloat.div 0 3; PrimFloat.div 1 3]%float.
Proof. reflexivity. Qed.

(** In binary64 the subtraction of the mean is rounded: the centred profile
    of [step_right] sums to 2^-52 and its mean is not 0. *)
Example centred_mean_in_binary64 :
  ∃ filled,
    interpolated_positions Examples.small Examples.step_right = Ok filled ∧
    let centred := map (λ p, PrimFloat.sub p (Np.mean filled)) filled in
    Np.sum centred = 0x1p-52%float ∧
    PrimFloat.eqb (Np.mean centred) 0 = false.
Proof. eexists. split; [reflexivity|]. split; reflexivity. Qed.

(** *** Interpolation of the gaps *)

Lemma defined_middle pre x post :
  defined (pre ++ x :: post) (length pre) = negb (Np.isnan x).
Proof.
  unfold defined. rewrite lookup_app_r; [lia|].
  by rewrite Nat.sub_diag.
Qed.

Lemma value_at_middle pre x post :
  value_at (pre ++ x :: post) (length pre) = x.
Proof.
  unfold value_at. rewrite nth_lookup lookup_app_r; [lia|].
  by rewrite Nat.sub_diag.
Qed.

(** The sample positions handed to [np.interp] are the defined positions,
    in increasing order, and the sample values are the entries there. *)
Lemma nonzero_defined pre q post :
  Np.nonzero_from (length pre) (negmask q) =
  filter (λ j, defined (pre ++ q ++ post) j) (seq (length pre) (length q)).
Proof.
  revert pre. induction q as [|x q IH]; intros pre; [done|].
  cbn [negmask map Np.nonzero_from length seq app].
  rewrite filter_cons defined_middle.
  specialize (IH (pre ++ [x])).
  rewrite length_app -app_assoc Nat.add_1_r in IH. simpl in IH.
  fold (negmask q). rewrite IH.
  by destruct (Np.isnan x).
Qed.

Lemma select_values pre q post :
  Np.select q (negmask q) =
  map (value_at (pre ++ q ++ post)) (Np.nonzero_from (length pre) (negmask q)).
Proof.
  revert pre. induction q as [|x q IH]; intros pre; [done|].
  cbn [negmask map Np.nonzero_from Np.select app].
  specialize (IH (pre ++ [x])).
  rewrite length_app -app_assoc Nat.add_1_r in IH. simpl in IH.
  fold (negmask q). rewrite IH.
  destruct (Np.isnan x); simpl; [done|].
  by rewrite value_at_middle.
Qed.

Lemma put_mask_map_nonzero (f : nat → float) s a mask i x b :
  a !! i = Some x → mask !! i = Some b →
  Np.put_mask a mask (map f (Np.nonzero_from s mask)) !! i
  = Some (if b then f (s + i)%nat else x).
Proof.
  revert s mask i. induction a as [|x0 a IH]; intros s mask i Ha Hm; [done|].
  destruct mask as [|b0 mask]; [done|].
  destruct i as [|i]; simpl in Ha, Hm.
  - injection Ha as ->. injection Hm as ->.
    rewrite Nat.add_0_r. by destruct b.
  - specialize (IH (S s) mask i Ha Hm).
    replace (S s + i)%nat with (s + S i)%nat in IH by lia.
    by destruct b0.
Qed.

Lemma linear_search_app key L R c :
  Forall (λ a, a < key)%nat L → Forall (λ a, key < a)%nat R →
  Np.linear_search key (L ++ R) c = c + Z.of_nat (length L).
Proof.
  intros HL HR. revert c. induction HL as [|a L Ha _ IH]; intros c; simpl.
  - destruct HR as [|r R Hr _]; simpl; [lia|].
    destruct (Nat.leb_spec r key); lia.
  - destruct (Nat.leb_spec a key); [|lia]. rewrite IH. lia.
Qed.

Lemma at_map (g : nat → float) xp (j : nat) x :
  xp !! j = Some x →
  Np.at_x xp (Z.of_nat j) = x ∧ Np.at_ (map g xp) (Z.of_nat j) = g x.
Proof.
  intros Hj. unfold Np.at_x, Np.at_. rewrite Nat2Z.id. split.
  - by apply nth_lookup_Some.
  - apply nth_lookup_Some. change (map g xp) with (g <$> xp).
    by rewrite list_lookup_fmap Hj.
Qed.

(** The bracket [np.interp] finds for a position [i] that lies strictly
    between the samples [L] on its left and the samples [R] on its right. *)
Lemma search_between L R i :
  Forall (λ j, j < i)%nat L → Forall (λ k, i < k)%nat R →
  Np.search i (L ++ R) =
  match L, R with
  | [], _ => -1
  | _ :: _, [] => Z.of_nat (length L)
  | _ :: _, _ :: _ => Z.of_nat (length L) - 1
  end.
Proof.
  intros HL HR. unfold Np.search.
  destruct L as [|a L].
  - destruct R as [|r R]; [done|]. simpl app. cbn [head].
    destruct (last (r :: R)) as [hi|] eqn:Hlast; [|done].
    apply last_Some_elem_of in Hlast.
    apply (proj1 (Forall_forall _ _) HR) in Hlast.
    apply Forall_cons in HR as [Hr _].
    destruct (Nat.ltb_spec hi i); [lia|].
    destruct (Nat.ltb_spec i r); [done|lia].
  - pose proof HL as HL'. apply Forall_cons in HL' as [Ha HL'].
    destruct R as [|r R].
    + rewrite app_nil_r. cbn [head].
      destruct (last (a :: L)) as [hi|] eqn:Hlast;
        [|by apply last_None in Hlast].
      apply last_Some_elem_of in Hlast.
      apply (proj1 (Forall_forall _ _) HL) in Hlast.
      destruct (Nat.ltb_spec hi i); [done|lia].
    + cbn [app head tail].
      destruct (last (a :: L ++ r :: R)) as [hi|] eqn:Hlast.
      2:{ by apply last_None in Hlast. }
      change (a :: L ++ r :: R) with ((a :: L) ++ r :: R) in Hlast.
      rewrite last_app in Hlast.
      destruct (last (r :: R)) as [hi'|] eqn:Hlast';
        [|by apply last_None in Hlast'].
      injection Hlast as <-.
      apply last_Some_elem_of in Hlast'.
      apply (proj1 (Forall_forall _ _) HR) in Hlast'.
      destruct (Nat.ltb_spec hi' i); [lia|].
      destruct (Nat.ltb_spec i a); [lia|].
      rewrite linear_search_app; [done..|]. cbn [length]. lia.
Qed.

(** What [np.interp] returns there. *)
Lemma interp_point_nearest (g : nat → float) L R i :
  Forall (λ j, j < i)%nat L → Forall (λ k, i < k)%nat R →
  Np.interp_point (L ++ R) (map g (L ++ R)) i =
  match last L, head R with
  | Some j, Some k => Np.lerp j (g j) k (g k) i
  | None, Some k => g k
  | Some j, None => g j
  | None, None => Np.nan
  end.
Proof.
  intros HL HR. unfold Np.interp_point.
  rewrite search_between; [done..|].
  destruct L as [|a L].
  - (* nothing on the left: the first sample on the right *)
    by destruct R.
  - destruct (last (a :: L)) as [j|] eqn:HlastL;
      [|by apply last_None in HlastL].
    assert (j < i)%nat as Hj.
    { apply last_Some_elem_of in HlastL.
      by apply (proj1 (Forall_forall _ _) HL). }
    rewrite last_lookup in HlastL. cbn [length pred] in HlastL.
    destruct R as [|r R].
    + (* nothing on the right: the last sample on the left *)
      rewrite app_nil_r. cbn [head].
      rewrite (proj2 (Z.eqb_neq _ _)); [cbn [length]; lia|].
      rewrite Z.eqb_refl.
      destruct (at_map g _ _ _ HlastL) as [_ Hv].
      replace (Z.of_nat (length (a :: L)) - 1)
        with (Z.of_nat (length L)) by (cbn [length]; lia).
      done.
    + (* samples on both sides: the segment between the two nearest *)
      cbn [head].
      replace (Z.of_nat (length (a :: L)) - 1)
        with (Z.of_nat (length L)) by (cbn [length]; lia).
      rewrite (proj2 (Z.eqb_neq _ _)); [lia|].
      rewrite (proj2 (Z.eqb_neq _ _)).
      { rewrite length_app. cbn [length]. lia. }
      rewrite (proj2 (Z.eqb_neq _ _)).
      { rewrite length_app. cbn [length]. lia. }
      assert (((a :: L) ++ r :: R) !! length L = Some j) as Hat.
      { rewrite lookup_app_l; [cbn [length]; lia|done]. }
      assert (((a :: L) ++ r :: R) !! S (length L) = Some r) as Hat'.
      { rewrite lookup_app_r; [cbn [length]; lia|].
        cbn [length]. by rewrite Nat.sub_diag. }
      destruct (at_map g _ _ _ Hat) as [Hx Hv].
      destruct (at_map g _ _ _ Hat') as [Hx' Hv'].
      rewrite Hx. destruct (Nat.eqb_spec j i); [lia|].
      unfold Np.segment.
      replace (Z.of_nat (length L) + 1) with (Z.of_nat (S (length L))) by lia.
      by rewrite Hx Hx' Hv Hv'.
Qed.

Lemma nonzero_negmask p :
  Np.nonzero (negmask p) = filter (λ j, defined p j) (seq 0 (length p)).
Proof.
  pose proof (nonzero_defined [] p []) as Hxp.
  by rewrite app_nil_r in Hxp.
Qed.

Lemma select_negmask p :
  Np.select p (negmask p) = map (value_at p) (Np.nonzero (negmask p)).
Proof.
  pose proof (select_values [] p []) as Hfp.
  by rewrite app_nil_r in Hfp.
Qed.

Lemma defined_lookup p i v :
  p !! i = Some v → defined p i = negb (Np.isnan v).
Proof. intros Hi. unfold defined. by rewrite Hi. Qed.

Lemma all_nan_no_sample p :
  forallb Np.isnan p = true → Np.nonzero (negmask p) = [].
Proof.
  unfold Np.nonzero. generalize 0%nat.
  induction p as [|x p IH]; intros s; [done|].
  cbn [forallb negmask map Np.nonzero_from].
  intros [Hx Hp]%andb_prop. rewrite Hx. cbn [negb]. by apply IH.
Qed.

Lemma some_defined_sample p :
  forallb Np.isnan p = false → Np.nonzero (negmask p) ≠ [].
Proof.
  unfold Np.nonzero. generalize 0%nat.
  induction p as [|x p IH]; intros s; [done|].
  cbn [forallb negmask map Np.nonzero_from].
  destruct (Np.isnan x); cbn [negb andb]; [by apply IH|done].
Qed.

(** The profile after [positions[nans] = np.interp(...)], entry by entry. *)
Lemma interp_fills_gaps p i :
  forallb Np.isnan p = false → (i < length p)%nat →
  Np.put_mask p (map Np.isnan p)
    (map (Np.interp_point (Np.nonzero (negmask p))
                          (Np.select p (negmask p)))
         (Np.nonzero (map Np.isnan p))) !! i
  = Some (fill_spec p i).
Proof.
  intros Hsome Hi.
  destruct (lookup_lt_is_Some_2 p i Hi) as [v Hv].
  change (Np.nonzero (map Np.isnan p))
    with (Np.nonzero_from 0 (map Np.isnan p)).
  rewrite (put_mask_map_nonzero _ 0 p _ i v (Np.isnan v)); [done| |].
  { change (map Np.isnan p) with (Np.isnan <$> p).
    by rewrite list_lookup_fmap Hv. }
  unfold fill_spec. rewrite (defined_lookup p i v Hv).
  destruct (Np.isnan v) eqn:Hnan; cbn [negb].
  2:{ f_equal. symmetry. by apply nth_lookup_Some. }
  f_equal. rewrite select_negmask nonzero_negmask.
  replace (length p) with (i + S (length p - S i))%nat by lia.
  rewrite seq_app. cbn [seq]. rewrite filter_app filter_cons.
  rewrite Nat.add_0_l (defined_lookup p i v Hv) Hnan. cbn [negb].
  destruct (decide (Is_true false)) as [[]|_].
  rewrite interp_point_nearest.
  - apply Forall_forall. intros j [_ Hj%elem_of_seq]%list_elem_of_filter. lia.
  - apply Forall_forall. intros j [_ Hj%elem_of_seq]%list_elem_of_filter. lia.
  - unfold nearest_left, nearest_right.
    replace (i + S (length p - S i) - S i)%nat with (length p - S i)%nat by lia.
    destruct (last _) as [j|] eqn:HL; destruct (head _) as [k|] eqn:HR;
      try done.
    (* no sample at all: excluded, one entry is defined *)
    exfalso. apply (some_defined_sample p Hsome).
    rewrite nonzero_negmask.
    replace (length p) with (i + S (length p - S i))%nat by lia.
    rewrite seq_app. cbn [seq]. rewrite filter_app filter_cons.
    rewrite Nat.add_0_l (defined_lookup p i v Hv) Hnan. cbn [negb].
    destruct (decide (Is_true false)) as [[]|_].
    apply last_None in HL. apply head_None in HR.
    replace (i + S (length p - S i) - S i)%nat with (length p - S i)%nat
      in HR by lia.
    by rewrite HL HR.
Qed.

Lemma rmap_Forall2 {A B} (f : A → result B) xs ys :
  rmap f xs = Ok ys → Forall2 (λ x y, f x = Ok y) xs ys.
Proof.
  revert ys. induction xs as [|x xs IH]; intros ys; simpl.
  - intros [= <-]. constructor.
  - destruct (f x) as [y|] eqn:Hx; simpl; [|done].
    destruct (rmap f xs) as [ys'|]; simpl; [|done].
    intros [= <-]. constructor; [done|]. by apply IH.
Qed.

Lemma where_eq_absent col v :
  Forall (λ px, px ≠ v) col → Np.where_eq col v = [].
Proof.
  intros Hcol. unfold Np.where_eq, Np.nonzero. generalize 0%nat.
  induction Hcol as [|px col Hpx _ IH]; intros s; [done|].
  cbn [map Np.nonzero_from].
  destruct (Z.eqb_spec v px) as [->|_]; [done|]. apply IH.
Qed.

(** A blank column has no position. *)
Lemma column_position_blank edges c y :
  column_position edges c = Ok y → blank_column edges c → Np.isnan y = true.
Proof.
  unfold column_position, column, blank_column.
  case_bool_decide; simpl; [|done].
  intros [= <-] Hblank.
  rewrite where_eq_absent; [|reflexivity].
  by apply Forall_fmap.
Qed.

Lemma blank_columns_all_undefined edges n positions :
  rmap (column_position edges) (seq 0 n) = Ok positions →
  (∀ c, (c < n)%nat → blank_column edges c) →
  forallb Np.isnan positions = true.
Proof.
  intros Hpos%rmap_Forall2 Hblank.
  apply forallb_forall. intros y Hy%list_elem_of_In.
  destruct (proj1 (list_elem_of_lookup _ _) Hy) as [i Hi].
  destruct (Forall2_lookup_r _ _ _ _ _ Hpos Hi) as (c & Hc & Hcol).
  apply lookup_seq in Hc as [-> Hlt].
  eapply column_position_blank; [done|]. by apply Hblank.
Qed.

(** A column with an edge has a position. *)
Lemma nonzero_from_length s mask :
  (length (Np.nonzero_from s mask) ≤ length mask)%nat.
Proof.
  revert s. induction mask as [|b mask IH]; intros s; [done|].
  cbn [Np.nonzero_from length]. specialize (IH (S s)).
  destruct b; cbn [length]; lia.
Qed.

Lemma where_eq_present col v :
  Exists (λ px, px = v) col → Np.where_eq col v ≠ [].
Proof.
  intros Hcol. unfold Np.where_eq, Np.nonzero. generalize 0%nat.
  induction Hcol as [px col ->|px col _ IH]; intros s;
    cbn [map Np.nonzero_from].
  - by rewrite Z.eqb_refl.
  - destruct (v =? px); [done|]. apply IH.
Qed.

Lemma column_position_defined edges c y :
  Z.of_nat (length (rows edges)) < 2 ^ 63 →
  column_position edges c = Ok y → edge_in_column edges c →
  Np.isnan y = false.
Proof.
  unfold column_position, column, edge_in_column.
  intros Hrows. case_bool_decide; simpl; [|done].
  intros [= <-] Hedge.
  apply around_not_nan, SFnonneg_not_nan, mean_of_indices_nonneg.
  - apply where_eq_present. by apply Exists_fmap.
  - pose proof (nonzero_from_length 0
      (map (Z.eqb 255) (map (λ row, nth c row 0) (rows edges)))) as Hlen.
    rewrite !length_map in Hlen. unfold Np.where_eq, Np.nonzero. lia.
Qed.

(** The defined entries of the raw profile are those of the columns that
    hold an edge. *)
Lemma defined_iff_edge edges n positions c :
  Z.of_nat (length (rows edges)) < 2 ^ 63 →
  rmap (column_position edges) (seq 0 n) = Ok positions →
  (c < n)%nat →
  defined positions c = true ↔ edge_in_column edges c.
Proof.
  intros Hrows Hpos Hc.
  pose proof (rmap_length _ _ _ Hpos) as Hlen. rewrite length_seq in Hlen.
  apply rmap_Forall2 in Hpos.
  destruct (lookup_lt_is_Some_2 positions c ltac:(lia)) as [y Hy].
  destruct (Forall2_lookup_r _ _ _ _ _ Hpos Hy) as (c' & Hc' & Hcol).
  apply lookup_seq in Hc' as [-> _]. cbn in Hcol.
  rewrite (defined_lookup _ _ _ Hy). split.
  - intros Hdef. unfold edge_in_column.
    destruct (decide (Exists (λ row, nth c row 0 = 255) (rows edges)))
      as [|Hblank]; [done|].
    apply not_Exists_Forall in Hblank; [|intros row; apply _].
    rewrite (column_position_blank _ _ _ Hcol) in Hdef; [|done].
    eapply Forall_impl; [exact Hblank|]. by intros row.
  - intros Hedge. by rewrite (column_position_defined _ _ _ Hrows Hcol Hedge).
Qed.

Lemma some_edge_some_defined edges n positions :
  Z.of_nat (length (rows edges)) < 2 ^ 63 →
  rmap (column_position edges) (seq 0 n) = Ok positions →
  (∃ c, (c < n)%nat ∧ edge_in_column edges c) →
  forallb Np.isnan positions = false.
Proof.
  intros Hrows Hpos (c & Hc & Hedge).
  apply (defined_iff_edge _ _ _ _ Hrows Hpos Hc) in Hedge.
  apply not_true_is_false. intros Hall.
  unfold defined in Hedge.
  destruct (positions !! c) as [y|] eqn:Hy; [|done].
  rewrite (proj1 (forallb_forall _ _) Hall y) in Hedge; [|done].
  apply list_elem_of_In, list_elem_of_lookup. by exists c.
Qed.

(** A blank edge map: [np.interp] is handed no sample and raises. *)
Lemma blank_raises_ValueError self edges positions :
  rmap (column_position edges) (range (prep_scale self).1) = Ok positions →
  (∀ c, (c < length positions)%nat → blank_column edges c) →
  get_edge_identity_vector self edges = Raise ValueError.
Proof.
  intros Hpos Hblank.
  assert (forallb Np.isnan positions = true) as Hall.
  { eapply blank_columns_all_undefined; [done|].
    intros c Hc. apply Hblank.
    apply rmap_length in Hpos. unfold range in Hpos.
    rewrite length_seq in Hpos. lia. }
  unfold get_edge_identity_vector, interpolated_positions.
  rewrite Hpos. cbn [mbind result_bind nan_helper].
  fold (negmask positions). by rewrite all_nan_no_sample.
Qed.

(** A profile with a defined entry: the gaps are filled as specified. *)
Lemma gaps_interpolated self edges positions :
  rmap (column_position edges) (range (prep_scale self).1) = Ok positions →
  forallb Np.isnan positions = false →
  ∃ filled, interpolated_positions self edges = Ok filled ∧
    ∀ i, (i < length positions)%nat →
      filled !! i = Some (fill_spec positions i).
Proof.
  intros Hpos Hsome. unfold interpolated_positions.
  rewrite Hpos. cbn [mbind result_bind nan_helper].
  fold (negmask positions). unfold Np.interp.
  pose proof (some_defined_sample positions Hsome) as Hxp.
  rewrite bool_decide_false.
  { by intros ?%length_zero_iff_nil. }
  rewrite bool_decide_false.
  { intros Hne. apply Hne. by rewrite select_negmask length_map. }
  eexists. split; [done|].
  intros i Hi. by apply interp_fills_gaps.
Qed.

(** C5 (amended).  For an edge map of fewer than 2^63 rows whose raw
    profile has been read off: the defined entries are those of the columns
    that hold an edge pixel; if every column is blank, extraction raises
    numpy's [ValueError] and returns no signature; if at least one column
    holds an edge pixel, every entry of the interpolated profile is the one
    the specification describes (defined entries kept, gaps on the line
    between the nearest defined neighbours, the nearest defined value beyond
    the first and last of them). *)
Theorem blank_raises_ValueError_gaps_interpolated self edges positions :
  Z.of_nat (length (rows edges)) < 2 ^ 63 →
  rmap (column_position edges) (range (prep_scale self).1) = Ok positions →
  (∀ c, (c < length positions)%nat →
     defined positions c = true ↔ edge_in_column edges c) ∧
  ((∀ c, (c < length positions)%nat → blank_column edges c) →
   get_edge_identity_vector self edges = Raise ValueError) ∧
  ((∃ c, (c < length positions)%nat ∧ edge_in_column edges c) →
   ∃ filled, interpolated_positions self edges = Ok filled ∧
     ∀ i, (i < length positions)%nat →
       filled !! i = Some (fill_spec positions i)).
Proof.
  intros Hrows Hpos.
  pose proof (rmap_length _ _ _ Hpos) as Hlen.
  unfold range in Hlen. rewrite length_seq in Hlen.
  split; [|split].
  - intros c Hc. apply (defined_iff_edge _ _ _ _ Hrows Hpos). lia.
  - by apply blank_raises_ValueError.
  - intros Hedge. apply gaps_interpolated; [done|].
    apply (some_edge_some_defined _ _ _ Hrows Hpos). by rewrite -Hlen.
Qed.

(** C5 (as stated).  On an edge map without any edge pixel the exception
    that leaves the extractor is [ValueError], not [EmptyEdgeError]. *)
Lemma all_black_raises_ValueError_not_EmptyEdgeError :
  get_edge_identity_vector Examples.small Examples.all_black = Raise ValueError
  ∧ get_edge_identity_vector Examples.small Examples.all_black
    ≠ Raise EmptyEdgeError.
Proof. split; [reflexivity|]. vm_compute. discriminate. Qed.

(** An all-black edge map, and one with gaps. *)
Lemma blank_raises_ValueError_gaps_interpolated_witness :
  get_edge_identity_vector Examples.small Examples.all_black = Raise ValueError
  ∧ ∃ filled,
      interpolated_positions (__init__ None (Some (5, 5))) Examples.gappy
      = Ok filled ∧
      ∀ i, (i < 5)%nat →
        filled !! i = Some (fill_spec [0; Np.nan; 2; Np.nan; Np.nan]%float i).
Proof.
  split.
  - apply (proj1 (proj2 (blank_raises_ValueError_gaps_interpolated
                    Examples.small Examples.all_black
                    [Np.nan; Np.nan; Np.nan] eq_refl eq_refl))).
    intros c Hc. simpl in Hc. unfold blank_column. simpl.
    do 3 (destruct c as [|c]; [repeat constructor; discriminate|]). lia.
  - apply (proj2 (proj2 (blank_raises_ValueError_gaps_interpolated
                    (__init__ None (Some (5, 5))) Examples.gappy
                    [0; Np.nan; 2; Np.nan; Np.nan]%float eq_refl eq_refl))).
    exists 0%nat. split; [simpl; lia|].
    apply Exists_cons_hd. reflexivity.
Defined.

(** The two results together: every entry of the signature, from the raw
    profile. *)
Corollary signature_entries self edges positions :
  rmap (column_position edges) (range (prep_scale self).1) = Ok positions →
  forallb Np.isnan positions = false →
  ∃ filled sig,
    interpolated_positions self edges = Ok filled ∧
    get_edge_identity_vector self edges = Ok sig ∧
    length sig = Z.to_nat (prep_scale self).1 ∧
    ∀ i, (i < length sig)%nat →
      filled !! i = Some (fill_spec positions i) ∧
      sig !! i
      = Some (PrimFloat.div
                (PrimFloat.sub (fill_spec positions i) (Np.mean filled))
                (Np.of_Z (prep_scale self).1)).
Proof.
  intros Hpos Hsome.
  destruct (gaps_interpolated self edges positions Hpos Hsome)
    as (filled & Hfilled & Hentries).
  pose proof (interpolated_positions_length _ _ _ Hfilled) as Hlen.
  exists filled. eexists. split; [done|].
  unfold get_edge_identity_vector, range.
  rewrite Hfilled -Hlen. cbn [mbind result_bind].
  rewrite centring_loop. cbn [mbind result_bind]. rewrite map_map.
  split; [done|].
  rewrite length_map. split; [done|].
  intros i Hi.
  assert (i < length positions)%nat as Hi'.
  { apply rmap_length in Hpos. unfold range in Hpos.
    rewrite length_seq in Hpos. lia. }
  specialize (Hentries i Hi'). split; [done|].
  change (map ?f filled) with (f <$> filled).
  by rewrite list_lookup_fmap Hentries.
Qed.

Example gappy_filled :
  interpolated_positions (__init__ None (Some (5, 5))) Examples.gappy
  = Ok [0; 1; 2; 2; 2]%float.
Proof. reflexivity. Qed.

(* ===================================================================== *)
(** ** Dictionaries *)
(* ===================================================================== *)

Lemma get_set_eq {V} (d : dict V) k v : get (set d k v) k = Some v.
Proof.
  induction d as [|[k' v'] d IH]; simpl.
  - by rewrite String.eqb_refl.
  - destruct (String.eqb_spec k k') as [->|Hne]; simpl.
    + by rewrite String.eqb_refl.
    + by destruct (String.eqb_spec k k').
Qed.

Lemma get_set_ne {V} (d : dict V) k k' v :
  k' ≠ k → get (set d k v) k' = get d k'.
Proof.
  intros Hne. induction d as [|[k0 v0] d IH]; simpl.
  - by destruct (String.eqb_spec k' k).
  - destruct (String.eqb_spec k k0) as [->|Hne0]; simpl.
    + by destruct (String.eqb_spec k' k0).
    + by rewrite IH.
Qed.

Lemma set_nonempty {V} (d : dict V) k v : length (set d k v) ≠ 0%nat.
Proof.
  destruct d as [|[k' v'] d]; simpl; [done|].
  by destruct (String.eqb k k').
Qed.

(* ===================================================================== *)
(** ** build_db *)
(* ===================================================================== *)

(** Runs the binds of a method as far as they are determined. *)
Ltac run_M :=
  repeat (progress (unfold mbind, mret, M_bind, M_ret, result_bind,
                      result_ret, get_self, get_globals, lift; cbn beta iota)).

Section Methods.

Context {image : Type} `{Cv2 image}.

Lemma build_db_run (img : image) entry_name st :
  build_db img entry_name st =
  match extract (self st) img with
  | Ok v => setitem_db entry_name v st
  | Raise e => (Raise e, st)
  end.
Proof.
  unfold build_db, extract. run_M.
  destruct (image_prep (self st) img) as [edges|]; run_M; [|done].
  by destruct (get_edge_identity_vector (self st) edges).
Qed.

(** C7.  [build_db] adds or overwrites the entry under [entry_name] and does
    nothing else.  Whenever a signature is extracted from the picture the
    call returns, and the collection then holds that signature under
    [entry_name]; when extraction raises, the call raises the same exception
    and the state is as before.  In either case the instance (its Match Set
    included), the files, the module's names, every other dictionary and
    every other entry of the collection are as they were. *)
Theorem build_db_only_sets_entry (img : image) entry_name st :
  let st' := (build_db img entry_name st).2 in
  self st' = self st ∧ files st' = files st ∧
  module_globals st' = module_globals st ∧
  (∀ l, l ≠ db (self st) → heap st' !! l = heap st !! l) ∧
  (∀ k, k ≠ entry_name →
     get (heap st' !!! db (self st)) k = get (heap st !!! db (self st)) k) ∧
  match extract (self st) img with
  | Ok v => (build_db img entry_name st).1 = Ok () ∧
            get (heap st' !!! db (self st)) entry_name = Some v
  | Raise e => build_db img entry_name st = (Raise e, st)
  end.
Proof.
  rewrite build_db_run.
  destruct (extract (self st) img) as [v|e]; [|done].
  cbn. repeat split; try done.
  - intros l Hl. by rewrite lookup_insert_ne.
  - intros k Hk. rewrite lookup_total_insert_eq. by apply get_set_ne.
  - rewrite lookup_total_insert_eq. apply get_set_eq.
Qed.

(** Overwriting an entry: the other entry, the order of the keys and the
    Match Set stay. *)
Example build_db_overwrites :
  let st0 := Examples.after (build_db Examples.slope_up "b")
               (Examples.after (build_db Examples.slope_down "a")
                               (Examples.fresh Examples.small)) in
  let st1 := Examples.after (build_db Examples.flat_top "a") st0 in
  keys (heap st1 !!! db (self st1)) = ["a"; "b"] ∧
  get (heap st1 !!! db (self st1)) "a" = Some [0; 0; 0]%float ∧
  get (heap st1 !!! db (self st1)) "b"
  = get (heap st0 !!! db (self st0)) "b" ∧
  matches (self st1) = ∅.
Proof. repeat split; vm_compute; reflexivity. Qed.

(* ===================================================================== *)
(** ** compare_with_db *)
(* ===================================================================== *)

Lemma record_match_run name ds ks st :
  record_match name ds ks st =
  (Ok (match_index_of ds),
   set_matches (recorded name ds ks (matches (self st))) st).
Proof.
  unfold record_match, recorded.
  destruct (match_index_of ds) as [i|]; run_M.
  - destruct (ks !! i) as [k|]; run_M; [done|]. by destruct st as [[]].
  - by destruct st as [[]].
Qed.

Lemma compare_with_db_run (img : image) name add st :
  compare_with_db img name add st =
  match extract (self st) img with
  | Raise e => (Raise e, st)
  | Ok v =>
      match database (self st) with
      | None => (Raise AttributeError, st)
      | Some l =>
          match distances v (heap st !!! l) with
          | Raise e => (Raise e, st)
          | Ok dk =>
              let st1 :=
                set_matches (recorded name dk.1 dk.2 (matches (self st))) st in
              let st2 := if add then (setitem_db name v st1).2 else st1 in
              (returned dk.1 dk.2 (heap st2 !!! db (self st2)), st2)
          end
      end
  end.
Proof.
  unfold compare_with_db, extract. run_M.
  destruct (image_prep (self st) img) as [edges|]; run_M; [|done].
  destruct (get_edge_identity_vector (self st) edges) as [v|]; run_M; [|done].
  unfold getattr_database.
  destruct (database (self st)) as [l|]; run_M; [|done].
  unfold deref at 1. run_M.
  destruct (distances v (heap st !!! l)) as [dk|]; run_M; [|done].
  rewrite record_match_run. unfold returned.
  destruct add; cbn [setitem_db deref snd]; run_M;
    case_bool_decide; try done;
    destruct (match_index_of dk.1) as [i|]; try done;
    by destruct (dk.2 !! i).
Qed.

(** C3.  An instance that only has the attributes [__init__] gave it cannot
    be compared with its collection, empty or not: once the signature has
    been extracted, [self.database] raises [AttributeError]; no distance is
    computed, no name is returned and nothing is recorded. *)
Theorem compare_with_db_without_database_attribute
  (img : image) name add st v :
  extract (self st) img = Ok v → database (self st) = None →
  compare_with_db img name add st = (Raise AttributeError, st).
Proof.
  unfold extract. intros Hv Hattr.
  unfold compare_with_db. run_M.
  destruct (image_prep (self st) img) as [edges|]; [|done].
  cbn [mbind result_bind] in Hv. run_M. rewrite Hv.
  unfold getattr_database. by rewrite Hattr.
Qed.

(** Once the caller has bound [database] to the collection, the comparison
    goes through: the name at the position [match_index_of] picks is
    returned, the pair is recorded in both directions, and the new signature
    is stored after the comparison. *)
Lemma compare_with_db_patched (img : image) name add st v ds ks i k :
  extract (self st) img = Ok v →
  database (self st) = Some (db (self st)) →
  distances v (heap st !!! db (self st)) = Ok (ds, ks) →
  match_index_of ds = Some i → ks !! i = Some k →
  compare_with_db img name add st =
  (Ok k,
   let st1 :=
     set_matches (<[k := name]> (<[name := k]> (matches (self st)))) st in
   if add
   then set_heap (<[db (self st) := set (heap st !!! db (self st)) name v]>
                    (heap st)) st1
   else st1).
Proof.
  intros Hv Hattr Hd Hi Hk.
  rewrite compare_with_db_run Hv Hattr Hd.
  cbn [fst snd]. unfold recorded, returned. rewrite Hi Hk.
  destruct add; cbn [setitem_db snd set_heap set_matches self heap db].
  - rewrite lookup_total_insert_eq.
    rewrite bool_decide_true; [by apply set_nonempty|done].
  - rewrite bool_decide_true; [|done].
    destruct (heap st !!! db (self st)) as [|[k0 v0] d]; [|done].
    simpl in Hd. injection Hd as <- <-. done.
Qed.

(** C2.  With an empty collection and [add_vector_to_db] set, the call does
    not return the notice: without the [database] attribute it raises
    [AttributeError] and stores nothing; with [database] bound to the
    collection it stores the signature, leaves the Match Set alone and then
    raises [UnboundLocalError], because the emptiness test comes after the
    insertion. *)
Theorem compare_with_db_on_empty_collection (img : image) name st v :
  extract (self st) img = Ok v →
  heap st !!! db (self st) = [] →
  (∀ l, database (self st) = Some l → l = db (self st)) →
  compare_with_db img name true st =
  match database (self st) with
  | None => (Raise AttributeError, st)
  | Some _ =>
      (Raise UnboundLocalError,
       set_heap (<[db (self st) := [(name, v)]]> (heap st)) st)
  end.
Proof.
  intros Hv Hempty Halias.
  rewrite compare_with_db_run Hv.
  destruct (database (self st)) as [l|]; [|done].
  rewrite (Halias l eq_refl) Hempty.
  cbn [distances mret result_ret fst snd].
  unfold recorded, returned. cbn [match_index_of Np.min mbind result_bind].
  cbn [setitem_db snd set_heap set_matches self heap db].
  rewrite lookup_total_insert_eq Hempty. cbn [set length].
  rewrite bool_decide_true; [done|].
  by destruct st as [[]].
Qed.

(** Without [add_vector_to_db] the notice is returned and nothing
    changes. *)
Lemma empty_collection_without_insert_returns_notice (img : image) name st v :
  extract (self st) img = Ok v →
  heap st !!! db (self st) = [] →
  database (self st) = Some (db (self st)) →
  compare_with_db img name false st = (Ok empty_notice, st).
Proof.
  intros Hv Hempty Hattr.
  rewrite compare_with_db_run Hv Hattr Hempty.
  cbn [distances mret result_ret fst snd].
  unfold recorded, returned. cbn [match_index_of Np.min mbind result_bind].
  cbn [set_matches self heap db]. rewrite Hempty.
  rewrite bool_decide_false; [by intros []|].
  by destruct st as [[]].
Qed.

(** A call of [compare_with_db] that returns a match name [k] (not the
    empty-collection notice) for [entry_name] leaves the Match Set sending
    [entry_name] to [k] and [k] to [entry_name]; the entries of all other
    names are as they were before the call. *)
Lemma compare_with_db_records_pair (img : image) name add st k st' :
  compare_with_db img name add st = (Ok k, st') → k ≠ empty_notice →
  matches (self st') = <[k := name]> (<[name := k]> (matches (self st))).
Proof.
  rewrite compare_with_db_run. intros Hrun Hk.
  destruct (extract (self st) img) as [v|]; [|done].
  destruct (database (self st)) as [l|]; [|done].
  destruct (distances v (heap st !!! l)) as [[ds ks]|]; [|done].
  cbn [fst snd] in Hrun. injection Hrun as Hret <-.
  unfold returned in Hret. case_bool_decide; [|congruence].
  unfold recorded.
  destruct (match_index_of ds) as [i|]; [|done].
  destruct (ks !! i) as [k'|]; [|done]. injection Hret as ->.
  by destruct add.
Qed.

(** Recording a pair keeps a symmetric Match Set symmetric, unless one of
    the two names was matched with a third one. *)
Lemma insert_pair_symmetric (m : gmap string string) n k :
  symmetric m → fresh_pair m n k →
  symmetric (<[k := n]> (<[n := k]> m)).
Proof.
  intros Hsym [Hn Hk] a b.
  destruct (decide (a = k)) as [->|Hak].
  { rewrite lookup_insert_eq. intros [= <-].
    destruct (decide (k = n)) as [->|Hkn]; [by rewrite lookup_insert_eq|].
    rewrite lookup_insert_ne; [done|]. by rewrite lookup_insert_eq. }
  rewrite lookup_insert_ne; [done|].
  destruct (decide (a = n)) as [->|Han].
  { rewrite lookup_insert_eq. intros [= <-]. by rewrite lookup_insert_eq. }
  rewrite lookup_insert_ne; [done|]. intros Hab.
  pose proof (Hsym a b Hab) as Hba.
  destruct (decide (b = k)) as [->|Hbk]; [by destruct Han; apply Hk|].
  destruct (decide (b = n)) as [->|Hbn]; [by destruct Hak; apply Hn|].
  by rewrite !lookup_insert_ne.
Qed.

(** Once the caller has bound [database]: after any sequence of successful
    [compare_with_db] calls none of which overwrites the entry of a name
    matched with a third name, a Match Set that was symmetric is
    symmetric. *)
Lemma symmetric_without_overwrites st st' :
  symmetric (matches (self st)) → rtc match_step st st' →
  symmetric (matches (self st')).
Proof.
  intros Hsym Hsteps. induction Hsteps as [st|st st1 st' Hstep _ IH]; [done|].
  apply IH. clear IH.
  destruct Hstep as [img name add st k st1 Hcall Hk Hfresh].
  rewrite (compare_with_db_records_pair _ _ _ _ _ _ Hcall Hk).
  by apply insert_pair_symmetric.
Qed.

End Methods.

(** *** The candidate that is picked *)

(** No entry lies strictly below what [a.min()] returns. *)
Lemma min2_no_smaller seen acc x :
  Forall (λ y, PrimFloat.ltb y acc = false) seen →
  Forall (λ y, PrimFloat.ltb y (Np.min2 acc x) = false) (x :: seen).
Proof.
  intros Hseen. unfold Np.min2.
  destruct (Np.isnan acc) eqn:Hacc.
  { apply Forall_forall. intros y _. by apply ltb_nan_r. }
  destruct (Np.isnan x) eqn:Hx.
  { apply Forall_forall. intros y _. by apply ltb_nan_r. }
  destruct (PrimFloat.ltb x acc) eqn:Hlt.
  - constructor; [apply ltb_irrefl|].
    eapply Forall_impl; [done|]. intros y Hy. simpl in Hy.
    by apply (ltb_chain x acc y).
  - by constructor.
Qed.

Lemma fold_min2_no_smaller l seen acc :
  Forall (λ y, PrimFloat.ltb y acc = false) seen →
  Forall (λ y, PrimFloat.ltb y (fold_left Np.min2 l acc) = false) (l ++ seen).
Proof.
  revert seen acc. induction l as [|x l IH]; intros seen acc Hseen; [done|].
  cbn [fold_left app].
  specialize (IH (x :: seen) (Np.min2 acc x) (min2_no_smaller _ _ _ Hseen)).
  apply Forall_forall. intros y Hy.
  apply (proj1 (Forall_forall _ _) IH).
  rewrite elem_of_app elem_of_cons.
  rewrite elem_of_cons elem_of_app in Hy. tauto.
Qed.

Lemma min_no_smaller ds m :
  Np.min ds = Ok m → Forall (λ y, PrimFloat.ltb y m = false) ds.
Proof.
  destruct ds as [|x l]; [done|]. intros [= <-].
  pose proof (fold_min2_no_smaller l [x] x) as Hall.
  apply Forall_forall. intros y Hy.
  apply (proj1 (Forall_forall _ _) (Hall ltac:(constructor;
    [apply ltb_irrefl|constructor]))).
  rewrite elem_of_app list_elem_of_singleton.
  rewrite elem_of_cons in Hy. tauto.
Qed.

(** [list.index] stops at the first equal entry. *)
Lemma list_index_first l x i :
  list_index l x = Ok i →
  (∃ y, l !! i = Some y ∧ PrimFloat.eqb y x = true) ∧
  ∀ j y, (j < i)%nat → l !! j = Some y → PrimFloat.eqb y x = false.
Proof.
  revert i. induction l as [|y0 l IH]; intros i; [done|].
  cbn [list_index].
  destruct (PrimFloat.eqb y0 x) eqn:Heq.
  - intros [= <-]. split; [by exists y0|]. lia.
  - destruct (list_index l x) as [i'|]; [|done].
    cbn. intros [= <-].
    destruct (IH i' eq_refl) as [Hat Hbefore]. split; [done|].
    intros [|j] y Hj Hy; [by injection Hy as <-|].
    apply (Hbefore j); [lia|done].
Qed.

(** The position bound to [match_index] holds the minimum of the distances
    and is the first one to do so. *)
Lemma match_index_of_first_minimum ds i :
  match_index_of ds = Some i →
  ∃ m, Np.min ds = Ok m ∧
       Forall (λ y, PrimFloat.ltb y m = false) ds ∧
       (∃ y, ds !! i = Some y ∧ PrimFloat.eqb y m = true) ∧
       ∀ j y, (j < i)%nat → ds !! j = Some y → PrimFloat.eqb y m = false.
Proof.
  unfold match_index_of.
  destruct (Np.min ds) as [m|] eqn:Hmin; [|done]. cbn.
  destruct (list_index ds m) as [i'|] eqn:Hidx; [|done].
  intros [= <-]. exists m. split; [done|].
  split; [by apply min_no_smaller|]. by apply list_index_first.
Qed.

(** The distances are those to the signatures of the collection, key by
    key, in the collection's own order. *)
Lemma distances_spec v d ds ks :
  distances v d = Ok (ds, ks) →
  ks = keys d ∧ Forall2 (λ entry x, distance v entry.2 = Ok x) d ds.
Proof.
  revert ds ks. induction d as [|[k0 v0] d IH]; intros ds ks; cbn [distances].
  - intros [= <- <-]. by split; [|constructor].
  - destruct (distance v v0) as [x|] eqn:Hx; [|done]. cbn.
    destruct (distances v d) as [[ds' ks']|]; [|done]. cbn.
    intros [= <- <-]. destruct (IH ds' ks' eq_refl) as [-> Hall].
    split; [done|]. by constructor.
Qed.

(** X11.  On an instance whose [database] the caller has bound to the
    collection, and with a non-empty collection, a name that is returned is
    the key of a nearest signature: no distance lies below its own, and it
    is the first in the collection's order among those at the minimum
    distance. *)
Corollary compare_with_db_patched_nearest
  {image : Type} `{Cv2 image} (img : image) name add st v k st' :
  extract (self st) img = Ok v →
  database (self st) = Some (db (self st)) →
  heap st !!! db (self st) ≠ [] →
  compare_with_db img name add st = (Ok k, st') →
  ∃ ds i m,
    distances v (heap st !!! db (self st))
    = Ok (ds, keys (heap st !!! db (self st))) ∧
    keys (heap st !!! db (self st)) !! i = Some k ∧
    Np.min ds = Ok m ∧
    Forall (λ y, PrimFloat.ltb y m = false) ds ∧
    (∃ y, ds !! i = Some y ∧ PrimFloat.eqb y m = true) ∧
    ∀ j y, (j < i)%nat → ds !! j = Some y → PrimFloat.eqb y m = false.
Proof.
  intros Hv Hattr Hne. rewrite compare_with_db_run Hv Hattr.
  destruct (distances v _) as [[ds ks]|] eqn:Hd; [|done].
  destruct (distances_spec _ _ _ _ Hd) as [-> _].
  cbn [fst snd]. intros [= Hret _]. unfold returned in Hret.
  rewrite bool_decide_true in Hret.
  { destruct add; cbn [setitem_db snd set_heap set_matches self heap db].
    - rewrite lookup_total_insert_eq. apply set_nonempty.
    - by destruct (heap st !!! db (self st)). }
  destruct (match_index_of ds) as [i|] eqn:Hi; [|done].
  destruct (keys _ !! i) as [k'|] eqn:Hk; [|done]. injection Hret as ->.
  destruct (match_index_of_first_minimum ds i Hi)
    as (m & Hm & Hlow & Hat & Hfirst).
  by exists ds, i, m.
Qed.

(** *** Worked calls *)

Lemma compare_with_db_without_database_attribute_witness :
  let st := Examples.after (build_db Examples.slope_down "A")
                           (Examples.fresh Examples.small) in
  get (heap st !!! db (self st)) "A"
  = Some [-0x1.5555555555555p-2; 0; 0x1.5555555555555p-2]%float
  ∧ compare_with_db Examples.flat_top "B" true st
    = (Raise AttributeError, st).
Proof.
  split; [vm_compute; reflexivity|].
  apply (compare_with_db_without_database_attribute
           Examples.flat_top "B" true
           (Examples.after (build_db Examples.slope_down "A")
                           (Examples.fresh Examples.small))
           [0; 0; 0]%float);
    vm_compute; reflexivity.
Defined.

Lemma compare_with_db_on_empty_collection_witness :
  let st := Examples.fresh Examples.small in
  heap st !!! db (self st) = [] ∧
  compare_with_db Examples.flat_top "a" true st = (Raise AttributeError, st).
Proof.
  split; [vm_compute; reflexivity|].
  apply (compare_with_db_on_empty_collection
           Examples.flat_top "a" (Examples.fresh Examples.small)
           [0; 0; 0]%float);
    [vm_compute; reflexivity|vm_compute; reflexivity|discriminate].
Defined.

(** Two candidates at the same distance from the probe: the one inserted
    first is returned, whichever it is. *)
Example tie_goes_to_first_inserted :
  let base := Examples.fresh Examples.small_patched in
  let ab := Examples.after (build_db Examples.slope_up "B")
              (Examples.after (build_db Examples.slope_down "A") base) in
  let ba := Examples.after (build_db Examples.slope_down "A")
              (Examples.after (build_db Examples.slope_up "B") base) in
  (compare_with_db Examples.flat_top "probe" true ab).1 = Ok "A" ∧
  (compare_with_db Examples.flat_top "probe" true ba).1 = Ok "B".
Proof. split; vm_compute; reflexivity. Qed.

(** The same call on the patched instance: the signature is stored, then
    the [return] statement fails. *)
Example patched_empty_collection_raises :
  let st := Examples.fresh Examples.small_patched in
  (compare_with_db Examples.flat_top "a" true st).1 = Raise UnboundLocalError
  ∧ get (heap (Examples.after (compare_with_db Examples.flat_top "a" true) st)
         !!! db (self st)) "a" = Some [0; 0; 0]%float.
Proof. split; vm_compute; reflexivity. Qed.

(** Once the caller has bound [database], an overwrite can leave an entry
    without its mirror image: "B" is matched with "A"; then "C" is matched
    with "B", which overwrites the entry of "B" and leaves "A" pointing at
    "B". *)
Example overwritten_match_breaks_symmetry :
  let st0 := Examples.after (build_db Examples.slope_down "A")
                            (Examples.fresh Examples.small_patched) in
  let st1 := Examples.after (compare_with_db Examples.flat_top "B" true) st0 in
  let st2 := Examples.after (compare_with_db Examples.flat_top "C" true) st1 in
  (compare_with_db Examples.flat_top "B" true st0).1 = Ok "A" ∧
  (compare_with_db Examples.flat_top "C" true st1).1 = Ok "B" ∧
  ¬ symmetric (matches (self st2)).
Proof.
  intros st0 st1 st2.
  split; [vm_compute; reflexivity|]. split; [vm_compute; reflexivity|].
  intros Hsym.
  assert (matches (self st2) !! "A" = Some "B") as HA
    by (vm_compute; reflexivity).
  apply Hsym in HA. vm_compute in HA. discriminate HA.
Qed.

(** One call on a collection of one: "B" is matched with "A". *)
Example one_match_is_symmetric :
  let st0 := Examples.after (build_db Examples.slope_down "A")
                            (Examples.fresh Examples.small_patched) in
  let st1 := Examples.after (compare_with_db Examples.flat_top "B" true) st0 in
  matches (self st1) !! "B" = Some "A" ∧ symmetric (matches (self st1)).
Proof.
  intros st0 st1. split; [vm_compute; reflexivity|].
  apply (symmetric_without_overwrites st0 st1).
  - intros a b Hab. vm_compute in Hab. discriminate Hab.
  - apply rtc_once.
    apply (step_compare_with_db Examples.flat_top "B" true st0 "A" st1).
    + vm_compute; reflexivity.
    + discriminate.
    + split; intros x Hx; vm_compute in Hx; discriminate Hx.
Qed.

(* ===================================================================== *)
(** ** compare_db *)
(* ===================================================================== *)

Lemma set_matches_same st : set_matches (matches (self st)) st = st.
Proof. by destruct st as [[]]. Qed.

(** With [key] unbound the inner loop either raises or was never entered. *)
Lemma distances_to_others_no_key key1 v1 d dk :
  distances_to_others key1 v1 d None = Ok dk → dk = ([], []).
Proof.
  induction d as [|[key2 v2] d IH]; simpl.
  - by intros [= <-].
  - destruct (String.eqb key1 key2); simpl; [done|].
    by destruct (distance v1 v2).
Qed.

Lemma for_each_unchanged {A} (body : A → M unit) xs st :
  (∀ x, (body x st).2 = st) → (for_each xs body st).2 = st.
Proof.
  intros Hbody. induction xs as [|x xs IH]; [done|].
  cbn [for_each]. run_M.
  specialize (Hbody x). destruct (body x st) as [[[]|e] st1];
    simpl in Hbody; subst st1; done.
Qed.

Lemma compare_db_without_database_attribute st :
  database (self st) = None → compare_db st = (Raise AttributeError, st).
Proof.
  intros Hattr. unfold compare_db, getattr_database. run_M.
  by rewrite Hattr.
Qed.

(** C6.  In the module as it is written [compare_db] never records a
    match: whatever the collection and the Match Set, the state after the
    call is the state before it. *)
Theorem compare_db_records_nothing st :
  key (module_globals st) = None → (compare_db st).2 = st.
Proof.
  intros Hkey. unfold compare_db, getattr_database. run_M.
  destruct (database (self st)) as [l|]; [|done].
  unfold deref. run_M.
  apply for_each_unchanged. intros [key1 v1]. run_M.
  destruct (bool_decide _); cbn [negb]; [done|].
  rewrite Hkey.
  destruct (distances_to_others key1 v1 (heap st !!! l) None) as [dk|] eqn:Hdk;
    [|done].
  apply distances_to_others_no_key in Hdk as ->.
  rewrite record_match_run. cbn [fst snd]. run_M.
  unfold recorded. cbn [fst snd match_index_of Np.min mbind result_bind].
  apply set_matches_same.
Qed.

Lemma compare_db_records_nothing_witness :
  let st := Examples.after (build_db Examples.flat_top "b")
              (Examples.after (build_db Examples.slope_down "a")
                              (Examples.fresh Examples.small)) in
  keys (heap st !!! db (self st)) = ["a"; "b"] ∧ (compare_db st).2 = st.
Proof.
  split; [vm_compute; reflexivity|].
  apply compare_db_records_nothing. vm_compute; reflexivity.
Defined.

(** The two ways the call ends on a collection of two: without the
    [database] attribute, and with it bound to the collection. *)
Example compare_db_two_entries :
  let build t :=
    Examples.after (build_db Examples.flat_top "b")
      (Examples.after (build_db Examples.slope_down "a") (Examples.fresh t)) in
  (compare_db (build Examples.small)).1 = Raise AttributeError ∧
  (compare_db (build Examples.small_patched)).1 = Raise NameError.
Proof. split; vm_compute; reflexivity. Qed.

(* ===================================================================== *)
(** ** The Match Set after the comparisons *)
(* ===================================================================== *)

Section Symmetry.

Context {image : Type} `{Cv2 image}.



End Symmetry.


(* ===================================================================== *)
(** ** save_db, save_matches *)
(* ===================================================================== *)

Lemma save_db_run dict_file st :
  save_db dict_file st =
  if os (module_globals st)
  then (Ok (), set_files (<[dict_file := PickledDb (heap st !!! db (self st))]>
                            (files st)) st)
  else (Raise NameError, st).
Proof.
  unfold save_db, os_path_exists, load_global_os. run_M.
  destruct (os (module_globals st)); [|done].
  unfold file_present. run_M.
  case_bool_decide as Hpresent; cbn [negb]; run_M;
    unfold touch, deref, dump, set_files; cbn [self heap files]; [done|].
  destruct (files st !! dict_file) eqn:Hf; [by destruct Hpresent|].
  by rewrite insert_insert_eq.
Qed.

(** The two methods have the same body. *)
Lemma save_matches_is_save_db dict_file st :
  save_matches dict_file st = save_db dict_file st.
Proof. reflexivity. Qed.

(** C9.  [save_matches] raises [NameError] at [os.path.exists], [os] not
    being imported, and then leaves the files alone; were [os] bound, the
    file would receive the signature collection [self.db], as with
    [save_db], and not the Match Set. *)
Theorem save_matches_writes_collection_or_raises dict_file st :
  save_matches dict_file st =
  if os (module_globals st)
  then (Ok (), set_files (<[dict_file := PickledDb (heap st !!! db (self st))]>
                            (files st)) st)
  else (Raise NameError, st).
Proof.
  unfold save_matches, os_path_exists, load_global_os. run_M.
  destruct (os (module_globals st)); [|done].
  unfold file_present. run_M.
  (* the file is created empty when absent, then overwritten either way *)
  case_bool_decide as Hpresent; cbn [negb]; run_M;
    unfold touch, deref, dump, set_files; cbn [self heap files]; [done|].
  destruct (files st !! dict_file) eqn:Hf; [by destruct Hpresent|].
  by rewrite insert_insert_eq.
Qed.

Example save_matches_on_import :
  let st := Examples.after (build_db Examples.slope_down "A")
                           (Examples.fresh Examples.small) in
  save_matches "matches.pkl" st = (Raise NameError, st).
Proof. vm_compute; reflexivity. Qed.

(** With [os] bound and a non-empty Match Set, the file does not hold the
    Match Set. *)
Example save_matches_with_os_bound :
  let st0 := Examples.after (build_db Examples.slope_down "A")
                            (Examples.fresh Examples.small_patched) in
  let st1 := Examples.after (compare_with_db Examples.flat_top "B" true) st0 in
  let st2 := State (self st1) (heap st1) (files st1) (Globals true None) in
  matches (self st2) !! "B" = Some "A" ∧
  files (Examples.after (save_matches "matches.pkl") st2) !! "matches.pkl"
  ≠ Some (PickledMatches (matches (self st2))).
Proof.
  intros st0 st1 st2. split; [vm_compute; reflexivity|].
  intros Hfile. vm_compute in Hfile. discriminate Hfile.
Qed.

(* ===================================================================== *)
(** ** __init__ *)
(* ===================================================================== *)

Section DefaultArgument.

Context {image : Type} `{Cv2 image}.

(** C10.  Two instances built without a [database] argument hold the same
    dictionary: what [build_db] stores through the first is present in the
    collection of the second. *)
Theorem default_database_is_shared
  (img : image) name scale1 scale2 h fs g st' :
  let t1 := __init__ None scale1 in
  let t2 := __init__ None scale2 in
  build_db img name (State t1 h fs g) = (Ok (), st') →
  db t1 = db t2 ∧ contains (heap st' !!! db t2) name = true.
Proof.
  intros t1 t2. rewrite build_db_run.
  destruct (extract _ img) as [v|]; [|done].
  intros [= <-]. split; [done|].
  unfold contains. apply bool_decide_eq_true.
  cbn [set_heap heap self db t1 t2 __init__ default].
  rewrite lookup_total_insert_eq get_set_eq. by eexists.
Qed.

End DefaultArgument.

(** The default size is 512 by 512: one call through [t1] and the key is in
    the collection of [t2]. *)
Lemma default_database_is_shared_witness :
  let t1 := __init__ None None in
  let t2 := __init__ None None in
  let st' := Examples.after (build_db Examples.wide_line "a")
                            (Examples.fresh t1) in
  contains (heap st' !!! db t2) "a" = true.
Proof.
  intros t1 t2 st'.
  apply (default_database_is_shared
           Examples.wide_line "a" None None class_defined ∅ imported st').
  vm_compute; reflexivity.
Defined.

(** A dictionary handed to the constructor is not the default one: what is
    built through it does not show in an instance built without
    argument. *)
Example explicit_database_is_not_shared :
  let own : loc := 1%nat in
  let t1 := __init__ (Some own) (Some (3, 3)) in
  let t2 := __init__ None (Some (3, 3)) in
  let st' := Examples.after (build_db Examples.slope_down "a")
               (State t1 (<[own := []]> class_defined) ∅ imported) in
  contains (heap st' !!! db t1) "a" = true ∧
  contains (heap st' !!! db t2) "a" = false.
Proof. split; vm_compute; reflexivity. Qed.

(* ===================================================================== *)
(** ** The extractor: shape and outcomes *)
(* ===================================================================== *)

Lemma rmap_raises_at {A B} (f : A → result B) pre x post e :
  Forall (λ a, ∃ b, f a = Ok b) pre → f x = Raise e →
  rmap f (pre ++ x :: post) = Raise e.
Proof.
  intros Hpre Hx. induction Hpre as [|a pre [b Ha] _ IH]; simpl.
  - by rewrite Hx.
  - by rewrite Ha IH.
Qed.

Lemma rmap_total {A B} (f : A → result B) xs :
  Forall (λ a, ∃ b, f a = Ok b) xs → ∃ ys, rmap f xs = Ok ys.
Proof.
  intros Hxs. induction Hxs as [|a xs [b Ha] _ [ys IH]]; simpl.
  - by eexists.
  - rewrite Ha IH. by eexists.
Qed.

Lemma column_position_in_range edges c :
  (c < cols edges)%nat → ∃ y, column_position edges c = Ok y.
Proof.
  intros Hc. unfold column_position, column.
  rewrite bool_decide_true; [done|]. by eexists.
Qed.

Lemma column_position_out_of_range edges c :
  (cols edges ≤ c)%nat → column_position edges c = Raise IndexError.
Proof.
  intros Hc. unfold column_position, column.
  rewrite bool_decide_false; [lia|done].
Qed.

Lemma profile_read edges n :
  (n ≤ cols edges)%nat →
  ∃ positions, rmap (column_position edges) (seq 0 n) = Ok positions.
Proof.
  intros Hn. apply rmap_total, Forall_forall.
  intros c Hc%elem_of_seq. apply column_position_in_range. lia.
Qed.

(** X1.  A signature that is returned has exactly [prep_scale[0]] entries,
    one per column read, whatever the edge map. *)
Theorem signature_has_width_entries self edges sig :
  get_edge_identity_vector self edges = Ok sig →
  length sig = Z.to_nat (prep_scale self).1.
Proof.
  unfold get_edge_identity_vector.
  destruct (interpolated_positions self edges) as [filled|]; [|done].
  cbn [mbind result_bind].
  destruct (rmap _ (range _)) as [final_array|] eqn:Hloop; [|done].
  intros [= <-]. rewrite length_map.
  apply rmap_length in Hloop. by rewrite Hloop /range length_seq.
Qed.

(** The signature of [slope_down] at width 3. *)
Lemma signature_has_width_entries_witness :
  length [-0x1.5555555555555p-2; 0; 0x1.5555555555555p-2]%float = 3%nat.
Proof.
  apply (signature_has_width_entries Examples.small Examples.slope_down).
  vm_compute; reflexivity.
Defined.

(** X2.  An edge map with fewer columns than the processing width is not
    cut short: reading the first missing column raises [IndexError], and no
    signature is returned, whatever the pixels. *)
Theorem narrow_edge_map_raises_IndexError self edges :
  (cols edges < Z.to_nat (prep_scale self).1)%nat →
  get_edge_identity_vector self edges = Raise IndexError.
Proof.
  intros Hnarrow.
  unfold get_edge_identity_vector, interpolated_positions, range.
  replace (Z.to_nat (prep_scale self).1)
    with (cols edges + S (Z.to_nat (prep_scale self).1 - S (cols edges)))%nat
    by lia.
  rewrite seq_app. cbn [seq].
  rewrite (rmap_raises_at _ _ _ _ IndexError); [| |done].
  - apply Forall_forall. intros c Hc%elem_of_seq.
    apply column_position_in_range. lia.
  - apply column_position_out_of_range. simpl. lia.
Qed.

(** Three columns read at width 5. *)
Lemma narrow_edge_map_raises_IndexError_witness :
  get_edge_identity_vector (__init__ None (Some (5, 5))) Examples.slope_down
  = Raise IndexError.
Proof.
  apply narrow_edge_map_raises_IndexError. vm_compute. lia.
Defined.

Lemma signature_of_filled self edges filled :
  interpolated_positions self edges = Ok filled →
  ∃ sig, get_edge_identity_vector self edges = Ok sig.
Proof.
  intros Hfilled.
  pose proof (interpolated_positions_length _ _ _ Hfilled) as Hlen.
  unfold get_edge_identity_vector, range.
  rewrite Hfilled -Hlen. cbn [mbind result_bind].
  rewrite centring_loop. by eexists.
Qed.

(** X3.  On an edge map with at least [prep_scale[0]] columns (and fewer
    than 2^63 rows) extraction has two outcomes only: a signature as soon as
    one of the columns read holds an edge pixel, numpy's [ValueError] when
    none does (in particular when the width is zero or negative). *)
Theorem extraction_outcome_on_wide_edge_map self edges :
  Z.of_nat (length (rows edges)) < 2 ^ 63 →
  (Z.to_nat (prep_scale self).1 ≤ cols edges)%nat →
  let in_range c := (c < Z.to_nat (prep_scale self).1)%nat in
  ((∃ c, in_range c ∧ edge_in_column edges c) →
   ∃ sig, get_edge_identity_vector self edges = Ok sig) ∧
  ((∀ c, in_range c → blank_column edges c) →
   get_edge_identity_vector self edges = Raise ValueError).
Proof.
  intros Hrows Hwide in_range.
  destruct (profile_read edges _ Hwide) as [positions Hpos].
  pose proof (rmap_length _ _ _ Hpos) as Hlen. rewrite length_seq in Hlen.
  split.
  - intros Hedge.
    pose proof (some_edge_some_defined _ _ _ Hrows Hpos Hedge) as Hsome.
    destruct (gaps_interpolated self edges positions Hpos Hsome)
      as (filled & Hfilled & _).
    by apply (signature_of_filled _ _ filled).
  - intros Hblank. apply (blank_raises_ValueError _ _ positions); [done|].
    intros c Hc. apply Hblank. unfold in_range. lia.
Qed.

(** One edge pixel is enough. *)
Lemma extraction_outcome_on_wide_edge_map_witness :
  (∃ sig, get_edge_identity_vector Examples.small Examples.flat_top = Ok sig).
Proof.
  apply (extraction_outcome_on_wide_edge_map Examples.small Examples.flat_top).
  - vm_compute; reflexivity.
  - vm_compute. lia.
  - exists 0%nat. split; [vm_compute; lia|].
    apply Exists_cons_hd. reflexivity.
Defined.

(* ===================================================================== *)
(** ** nan_helper, and what the extractor reads *)
(* ===================================================================== *)

Lemma elem_of_nonzero_from s mask i :
  i ∈ Np.nonzero_from s mask ↔
  ∃ j, i = (s + j)%nat ∧ mask !! j = Some true.
Proof.
  revert s. induction mask as [|b mask IH]; intros s.
  - cbn [Np.nonzero_from]. split; [by intros ?%elem_of_nil|].
    by intros (j & _ & ?).
  - assert (i ∈ Np.nonzero_from (S s) mask ↔
            ∃ j, i = (s + S j)%nat ∧ (b :: mask) !! S j = Some true) as Htail.
    { rewrite IH. split; intros (j & -> & Hj); exists j; (split; [lia|done]). }
    cbn [Np.nonzero_from]. destruct b.
    + rewrite elem_of_cons Htail. split.
      * intros [->|(j & -> & Hj)]; [exists 0%nat|exists (S j)]; (split; [lia|done]).
      * intros ([|j] & -> & Hj); [left; lia|right; by exists j].
    + rewrite Htail. split.
      * intros (j & -> & Hj). by exists (S j).
      * intros ([|j] & -> & Hj); [done|by exists j].
Qed.

Lemma nonzero_from_increasing s mask :
  StronglySorted lt (Np.nonzero_from s mask).
Proof.
  revert s. induction mask as [|b mask IH]; intros s; cbn [Np.nonzero_from].
  - constructor.
  - destruct b; [|apply IH]. constructor; [apply IH|].
    apply Forall_forall. intros i (j & -> & _)%elem_of_nonzero_from. lia.
Qed.

(** X4.  [nan_helper] hands back a mask as long as the profile and an index
    function under which the mask and its negation split the positions of
    the profile in two: the undefined ones and the defined ones, each
    listed in increasing order -- the order [np.interp] needs for its
    sample points. *)
Theorem nan_helper_splits_positions y :
  let nans := (nan_helper y).1 in
  let index := (nan_helper y).2 in
  length nans = length y ∧
  (∀ i, i ∈ index nans ↔ ∃ v, y !! i = Some v ∧ Np.isnan v = true) ∧
  (∀ i, i ∈ index (map negb nans) ↔
        ∃ v, y !! i = Some v ∧ Np.isnan v = false) ∧
  StronglySorted lt (index nans) ∧
  StronglySorted lt (index (map negb nans)).
Proof.
  cbn [nan_helper fst snd]. unfold Np.nonzero.
  split; [by rewrite length_map|].
  split; [|split; [|split; apply nonzero_from_increasing]].
  - intros i. rewrite elem_of_nonzero_from. split.
    + intros (j & -> & Hj). cbn [Nat.add].
      change (map Np.isnan y) with (Np.isnan <$> y) in Hj.
      rewrite list_lookup_fmap in Hj.
      destruct (y !! j) as [v|]; [|done]. injection Hj as Hv. by exists v.
    + intros (v & Hi & Hv). exists i. split; [done|].
      change (map Np.isnan y) with (Np.isnan <$> y).
      by rewrite list_lookup_fmap Hi /= Hv.
  - intros i. rewrite elem_of_nonzero_from. split.
    + intros (j & -> & Hj). cbn [Nat.add].
      change (map negb (map Np.isnan y)) with (negb <$> (Np.isnan <$> y)) in Hj.
      rewrite !list_lookup_fmap in Hj.
      destruct (y !! j) as [v|]; [|done]. injection Hj as Hv.
      exists v. split; [done|]. by destruct (Np.isnan v).
    + intros (v & Hi & Hv). exists i. split; [done|].
      change (map negb (map Np.isnan y)) with (negb <$> (Np.isnan <$> y)).
      by rewrite !list_lookup_fmap Hi /= Hv.
Qed.

Lemma rmap_ext {A B} (f g : A → result B) xs :
  (∀ x, x ∈ xs → f x = g x) → rmap f xs = rmap g xs.
Proof.
  induction xs as [|x xs IH]; intros Hfg; [done|].
  cbn [rmap]. rewrite (Hfg x); [by left|].
  rewrite IH; [|done]. intros x' Hx'. apply Hfg. by right.
Qed.

Lemma nonzero_from_all_false s mask :
  (∀ r, nth r mask false = false) → Np.nonzero_from s mask = [].
Proof.
  revert s. induction mask as [|b mask IH]; intros s Hall; [done|].
  cbn [Np.nonzero_from]. rewrite (Hall 0%nat : b = false).
  apply IH. intros r. apply (Hall (S r)).
Qed.

Lemma nonzero_from_same_true s m1 m2 :
  (∀ r, nth r m1 false = nth r m2 false) →
  Np.nonzero_from s m1 = Np.nonzero_from s m2.
Proof.
  revert s m2. induction m1 as [|b m1 IH]; intros s m2 Hsame.
  - symmetry. apply nonzero_from_all_false. intros r.
    rewrite -Hsame. by destruct r.
  - destruct m2 as [|b2 m2].
    + apply nonzero_from_all_false. intros r. rewrite Hsame. by destruct r.
    + cbn [Np.nonzero_from]. rewrite (Hsame 0%nat : b = b2).
      rewrite (IH (S s) m2); [|done]. intros r. apply (Hsame (S r)).
Qed.

Lemma nth_column c (rws : list (list Z)) r :
  nth r (map (Z.eqb 255) (map (λ row, nth c row 0) rws)) false
  = (255 =? nth c (nth r rws []) 0).
Proof.
  revert r. induction rws as [|row rws IH]; intros [|r]; cbn [map nth];
    try done; by destruct c.
Qed.

Lemma column_position_same_edge_pixels e1 e2 c :
  (c < cols e1)%nat → (c < cols e2)%nat →
  (∀ r, nth c (nth r (rows e1) []) 0 = 255 ↔
        nth c (nth r (rows e2) []) 0 = 255) →
  column_position e1 c = column_position e2 c.
Proof.
  intros H1 H2 Hsame. unfold column_position, column.
  rewrite !bool_decide_true; [done..|]. cbn [mbind result_bind].
  do 4 f_equal. unfold Np.where_eq, Np.nonzero.
  apply nonzero_from_same_true. intros r. rewrite !nth_column.
  specialize (Hsame r).
  destruct (Z.eqb_spec 255 (nth c (nth r (rows e1) []) 0)) as [E1|N1];
    destruct (Z.eqb_spec 255 (nth c (nth r (rows e2) []) 0)) as [E2|N2];
    try done.
  - destruct N2. symmetry. by apply Hsame.
  - destruct N1. symmetry. by apply Hsame.
Qed.

(** X5.  The signature reads the edge map only through the positions of
    its 255-pixels in the first [prep_scale[0]] columns: two edge maps wide
    enough that agree there have the same signature (or fail alike),
    whatever their other grey levels, further columns, or rows without edge
    pixel below. *)
Theorem signature_reads_edge_pixels_only self e1 e2 :
  (Z.to_nat (prep_scale self).1 ≤ cols e1)%nat →
  (Z.to_nat (prep_scale self).1 ≤ cols e2)%nat →
  (∀ r c, (c < Z.to_nat (prep_scale self).1)%nat →
     nth c (nth r (rows e1) []) 0 = 255 ↔
     nth c (nth r (rows e2) []) 0 = 255) →
  get_edge_identity_vector self e1 = get_edge_identity_vector self e2.
Proof.
  intros H1 H2 Hsame.
  unfold get_edge_identity_vector, interpolated_positions.
  rewrite (rmap_ext (column_position e1) (column_position e2)); [|done].
  intros c Hc%elem_of_seq.
  apply column_position_same_edge_pixels; [lia..|].
  intros r. apply Hsame. lia.
Qed.

Lemma signature_reads_edge_pixels_only_witness :
  get_edge_identity_vector Examples.small Examples.flat_top
  = get_edge_identity_vector Examples.small Examples.flat_top_noisy.
Proof.
  apply signature_reads_edge_pixels_only.
  - vm_compute. lia.
  - vm_compute. lia.
  - intros r c Hc.
    assert (c = 0 ∨ c = 1 ∨ c = 2)%nat as [-> | [-> | ->]]
      by (vm_compute in Hc; lia);
      do 4 (destruct r as [|r]; [by vm_compute|]);
      by destruct r.
Defined.

(* ===================================================================== *)
(** ** The distance *)
(* ===================================================================== *)

(** *** Differences and squares *)

Lemma SFabs_binary_round_aux s m e l :
  SFabs (binary_round_aux prec emax s m e l)
  = SFabs (binary_round_aux prec emax false m e l).
Proof.
  unfold binary_round_aux.
  destruct (shr_fexp prec emax m e l) as [mrs1 e1].
  destruct (shr_fexp prec emax _ e1 loc_Exact) as [mrs2 e2].
  destruct (shr_m mrs2) as [|p|p]; try reflexivity.
  by destruct (Z.leb _ _).
Qed.

Lemma SFabs_binary_round s m e :
  SFabs (binary_round prec emax s m e)
  = SFabs (binary_round prec emax false m e).
Proof.
  unfold binary_round. destruct (shl_align m e _) as [mz ez].
  apply SFabs_binary_round_aux.
Qed.

Lemma SFabs_binary_normalize_opp m e :
  SFabs (binary_normalize prec emax (- m) e false)
  = SFabs (binary_normalize prec emax m e false).
Proof.
  destruct m as [|p|p]; cbn [Z.opp binary_normalize]; [done| |].
  - apply SFabs_binary_round.
  - symmetry. apply SFabs_binary_round.
Qed.

(** The two differences of a pair have the same magnitude. *)
Lemma SFabs_SFsub_swap x y :
  SFabs (SFsub prec emax x y) = SFabs (SFsub prec emax y x).
Proof.
  destruct x as [sx|sx| |sx mx ex], y as [sy|sy| |sy my ey];
    try (by destruct sx, sy); try done.
  cbn [SFsub]. rewrite (Z.min_comm ey ex).
  rewrite -SFabs_binary_normalize_opp. f_equal. f_equal. lia.
Qed.

(** A square does not see the sign. *)
Lemma SFmul_square_abs d :
  SFmul prec emax d d = SFmul prec emax (SFabs d) (SFabs d).
Proof. by destruct d as [[]|[]| |[] m e]. Qed.

Lemma square_of_difference_swap x y :
  PrimFloat.mul (PrimFloat.sub x y) (PrimFloat.sub x y)
  = PrimFloat.mul (PrimFloat.sub y x) (PrimFloat.sub y x).
Proof.
  apply Prim2SF_inj. rewrite !mul_spec !sub_spec /SF64mul /SF64sub.
  rewrite SFmul_square_abs SFabs_SFsub_swap. symmetry. apply SFmul_square_abs.
Qed.

Lemma squares_zip_swap a b :
  map (λ x, PrimFloat.mul x x) (zip_with PrimFloat.sub a b)
  = map (λ x, PrimFloat.mul x x) (zip_with PrimFloat.sub b a).
Proof.
  revert b. induction a as [|x a IH]; intros [|y b]; cbn; try done.
  by rewrite square_of_difference_swap IH.
Qed.

Lemma squares_broadcast_swap x b :
  map (λ d, PrimFloat.mul d d) (map (PrimFloat.sub x) b)
  = map (λ d, PrimFloat.mul d d) (map (λ y, PrimFloat.sub y x) b).
Proof.
  rewrite !map_map. apply map_ext. intros y. apply square_of_difference_swap.
Qed.

Lemma norm_of_difference_swap a b :
  (d ← Np.sub a b; Ok (Np.linalg_norm d))
  = (d ← Np.sub b a; Ok (Np.linalg_norm d)).
Proof.
  unfold Np.sub, Np.linalg_norm.
  destruct (decide (length a = length b)) as [Hlen|Hlen].
  - rewrite !bool_decide_true; [done..|]. cbn. by rewrite squares_zip_swap.
  - rewrite !bool_decide_false; [done..|].
    destruct a as [|x [|x' a]], b as [|y [|y' b]];
      cbn [mbind result_bind]; try done.
    + by rewrite squares_broadcast_swap.
    + by rewrite -squares_broadcast_swap.
Qed.

(** X6.  The distance does not depend on the order of its two arguments,
    in binary64 and for every pair of vectors: the result, or the failure
    on incompatible lengths, is the same. *)
Theorem distance_symmetric a b : distance a b = distance b a.
Proof.
  pose proof (norm_of_difference_swap a b) as Hnorm.
  unfold distance.
  destruct (Np.sub a b) as [d|e], (Np.sub b a) as [d'|e'];
    cbn [mbind result_bind] in Hnorm |- *; [|done..].
  injection Hnorm as Hnorm. by rewrite Hnorm.
Qed.

(** *** The distance of a signature to itself *)

Lemma is_finite_spec x :
  PrimFloat.is_finite x = true →
  match Prim2SF x with
  | S754_zero _ | S754_finite _ _ _ => True
  | _ => False
  end.
Proof.
  unfold PrimFloat.is_finite, PrimFloat.is_nan, PrimFloat.is_infinity.
  rewrite !FloatAxioms.eqb_spec abs_spec.
  destruct (Prim2SF x) as [s|s| |s m e]; try done.
  by destruct s.
Qed.

Lemma sub_self x : PrimFloat.is_finite x = true → PrimFloat.sub x x = 0%float.
Proof.
  intros Hx%is_finite_spec. apply Prim2SF_inj. rewrite sub_spec /SF64sub.
  destruct (Prim2SF x) as [s|s| |s m e]; try done.
  - by destruct s.
  - cbn [SFsub]. by rewrite Z.sub_diag.
Qed.

Lemma sum_of_zeros (l : list float) :
  Forall (λ x, x = 0%float) l → fold_left PrimFloat.add l 0%float = 0%float.
Proof. intros Hl. induction Hl as [|x l -> _ IH]; [done|]. exact IH. Qed.

(** X7.  The distance of a vector of finite numbers to itself is exactly
    zero. *)
Theorem self_distance_zero a :
  Forall (λ x, PrimFloat.is_finite x = true) a → distance a a = Ok 0%float.
Proof.
  intros Ha. unfold distance, Np.sub.
  rewrite bool_decide_true; [done|]. cbn [mbind result_bind].
  unfold Np.linalg_norm, Np.sum. rewrite sum_of_zeros; [|done].
  induction Ha as [|x a Hx _ IH]; [constructor|].
  cbn [zip_with map]. constructor; [|exact IH].
  by rewrite (sub_self x Hx).
Qed.

Lemma self_distance_zero_witness :
  distance [-0x1.5555555555555p-2; 0; 0x1.5555555555555p-2]%float
           [-0x1.5555555555555p-2; 0; 0x1.5555555555555p-2]%float
  = Ok 0%float.
Proof.
  apply self_distance_zero. repeat constructor.
Defined.

(** Not so with an infinite entry: the difference is not a number. *)
Example self_distance_of_infinite_entry :
  distance [infinity] [infinity] = Ok Np.nan.
Proof. reflexivity. Qed.

(* ===================================================================== *)
(** ** The methods, call by call *)
(* ===================================================================== *)

(** *** Signatures of different widths *)

Lemma sub_raises_ValueError a b e : Np.sub a b = Raise e → e = ValueError.
Proof.
  unfold Np.sub. case_bool_decide; [done|].
  destruct a as [|x [|x' a]], b as [|y [|y' b]]; try done; by intros [= <-].
Qed.

Lemma sub_mismatch a b :
  length a ≠ length b → length a ≠ 1%nat → length b ≠ 1%nat →
  Np.sub a b = Raise ValueError.
Proof.
  intros Hab Ha Hb. unfold Np.sub. rewrite bool_decide_false; [done|].
  by destruct a as [|x [|x' a]], b as [|y [|y' b]].
Qed.

Lemma distance_raises_ValueError a b e :
  distance a b = Raise e → e = ValueError.
Proof.
  unfold distance. destruct (Np.sub a b) as [d|e'] eqn:Hsub; [done|].
  intros [= <-]. by apply (sub_raises_ValueError a b).
Qed.

Lemma distances_raises_ValueError v d e :
  distances v d = Raise e → e = ValueError.
Proof.
  induction d as [|[k w] d IH]; cbn [distances]; [done|].
  destruct (distance v w) as [x|e'] eqn:Hx; cbn [mbind result_bind].
  - destruct (distances v d) as [rest|e'']; cbn [mbind result_bind]; [done|].
    intros [= <-]. by apply IH.
  - intros [= <-]. by apply (distance_raises_ValueError v w).
Qed.

Lemma distances_mismatch v d k w :
  (k, w) ∈ d →
  length w ≠ length v → length w ≠ 1%nat → length v ≠ 1%nat →
  distances v d = Raise ValueError.
Proof.
  intros Hin Hlen Hw Hv.
  destruct (distances v d) as [[ds ks]|e] eqn:Hd.
  - exfalso. apply distances_spec in Hd as [_ Hall].
    apply list_elem_of_lookup in Hin as [i Hi].
    destruct (Forall2_lookup_l _ _ _ _ _ Hall Hi) as (x & _ & Hx).
    cbn in Hx. unfold distance in Hx.
    rewrite sub_mismatch in Hx; [congruence|done..].
  - f_equal. by apply (distances_raises_ValueError v d).
Qed.

Lemma keys_set {V} (d : dict V) k v :
  keys (set d k v) = if contains d k then keys d else keys d ++ [k].
Proof.
  unfold contains, keys. induction d as [|[k' v'] d IH]; [done|].
  cbn [set get map fst].
  destruct (String.eqb k k') eqn:Hk; cbn [map fst].
  - rewrite bool_decide_true; [by eexists|done].
  - rewrite IH. by case_bool_decide.
Qed.

Lemma set_set {V} (d : dict V) k v w : set (set d k v) k w = set d k w.
Proof.
  induction d as [|[k' v'] d IH]; cbn [set].
  - by rewrite String.eqb_refl.
  - destruct (String.eqb k k') eqn:Hk; cbn [set]; rewrite Hk; [done|].
    by rewrite IH.
Qed.

Lemma elem_of_keys_get {V} (d : dict V) k :
  k ∈ keys d ↔ is_Some (get d k).
Proof.
  unfold keys. induction d as [|[k' v'] d IH]; cbn [map fst get].
  - split; [by intros ?%elem_of_nil|by intros [? ?]].
  - rewrite elem_of_cons IH.
    destruct (String.eqb_spec k k') as [->|Hne]; [|tauto].
    split; [by eexists|by left].
Qed.

Lemma for_each_preserves {A} (R : state → state → Prop) (body : A → M unit)
  xs st :
  Reflexive R → Transitive R →
  (∀ x st0, R st0 (body x st0).2) → R st (for_each xs body st).2.
Proof.
  intros Hrefl Htrans Hbody. revert st.
  induction xs as [|x xs IH]; intros st; [done|].
  cbn [for_each]. run_M.
  pose proof (Hbody x st) as Hstep.
  destruct (body x st) as [[[]|e] st1]; cbn [snd] in Hstep |- *; [|done].
  by etrans.
Qed.

Lemma recorded_dom name ds ks (m : gmap string string) :
  dom m ⊆ dom (recorded name ds ks m).
Proof.
  unfold recorded. destruct (match_index_of ds) as [i|]; [|done].
  destruct (ks !! i) as [k|]; [|done].
  rewrite !dom_insert. set_solver.
Qed.

Lemma recorded_other name ds ks (m : gmap string string) x :
  x ≠ name → x ∉ ks → recorded name ds ks m !! x = m !! x.
Proof.
  intros Hname Hks. unfold recorded.
  destruct (match_index_of ds) as [i|]; [|done].
  destruct (ks !! i) as [k|] eqn:Hk; [|done].
  rewrite !lookup_insert_ne; [| |done].
  - intros ->. apply Hks. by apply list_elem_of_lookup_2 in Hk.
  - done.
Qed.

Section MoreMethods.

Context {image : Type} `{Cv2 image}.

(** X8.  Signatures of different widths are not compared silently: when the
    compared collection holds a signature whose length differs from the new
    one (neither having a single entry, which numpy would broadcast),
    [compare_with_db] raises numpy's [ValueError]; nothing is recorded and
    the new signature is not stored. *)
Theorem compare_with_db_width_mismatch
  (img : image) name add st v l k w :
  extract (self st) img = Ok v → database (self st) = Some l →
  (k, w) ∈ heap st !!! l →
  length w ≠ length v → length w ≠ 1%nat → length v ≠ 1%nat →
  compare_with_db img name add st = (Raise ValueError, st).
Proof.
  intros Hv Hattr Hin Hlen Hw Hlv.
  rewrite compare_with_db_run Hv Hattr.
  by rewrite (distances_mismatch v _ k w).
Qed.

(** X9.  What [compare_with_db] leaves alone, whatever its outcome: the
    attributes [db], [database] and [prep_scale], the files, the module's
    names, every dictionary other than the collection, and in the collection
    every entry other than the one of [entry_name]; without
    [add_vector_to_db] no dictionary at all; in the Match Set the entry of
    every name that is neither [entry_name] nor a key of the compared
    collection. *)
Theorem compare_with_db_frame (img : image) name add st :
  let st' := (compare_with_db img name add st).2 in
  db (self st') = db (self st) ∧
  database (self st') = database (self st) ∧
  prep_scale (self st') = prep_scale (self st) ∧
  files st' = files st ∧
  module_globals st' = module_globals st ∧
  (∀ l, l ≠ db (self st) → heap st' !! l = heap st !! l) ∧
  (∀ k, k ≠ name →
     get (heap st' !!! db (self st)) k = get (heap st !!! db (self st)) k) ∧
  (add = false → heap st' = heap st) ∧
  (∀ x l, x ≠ name → database (self st) = Some l →
     x ∉ keys (heap st !!! l) →
     matches (self st') !! x = matches (self st) !! x).
Proof.
  cbv zeta. rewrite compare_with_db_run.
  destruct (extract (self st) img) as [v|e]; [|by repeat split].
  destruct (database (self st)) as [l|] eqn:Hattr; [|by repeat split].
  destruct (distances v (heap st !!! l)) as [[ds ks]|e] eqn:Hd;
    [|by repeat split].
  apply distances_spec in Hd as [-> _].
  cbn [fst snd].
  assert (∀ x l', x ≠ name → Some l = Some l' →
            x ∉ keys (heap st !!! l') →
            recorded name ds (keys (heap st !!! l)) (matches (self st)) !! x
            = matches (self st) !! x) as Hmatches.
  { intros x l' Hx [= <-] Hkeys. by apply recorded_other. }
  destruct add; cbn [setitem_db snd set_heap set_matches self heap files
                     module_globals db database prep_scale matches].
  - repeat split; try done.
    + intros l' Hl'. by rewrite lookup_insert_ne.
    + intros k Hk. rewrite lookup_total_insert_eq. by apply get_set_ne.
  - repeat split; done.
Qed.

(** X10.  A name returned by [compare_with_db] is a key the compared
    collection had before the call -- or the notice, and then nothing was
    to be stored and the collection is empty.  So a name that is new to the
    collection is never matched with itself. *)
Theorem compare_with_db_returns_stored_name
  (img : image) name add st k st' :
  compare_with_db img name add st = (Ok k, st') →
  (∃ l, database (self st) = Some l ∧ k ∈ keys (heap st !!! l)) ∨
  (k = empty_notice ∧ add = false ∧ heap st !!! db (self st) = []).
Proof.
  rewrite compare_with_db_run.
  destruct (extract (self st) img) as [v|e]; [|done].
  destruct (database (self st)) as [l|]; [|done].
  destruct (distances v (heap st !!! l)) as [[ds ks]|e] eqn:Hd; [|done].
  apply distances_spec in Hd as [-> _].
  cbn [fst snd]. intros [= Hret _]. unfold returned in Hret.
  case_bool_decide as Hempty.
  - left. exists l. split; [done|].
    destruct (match_index_of ds) as [i|]; [|done].
    destruct (keys _ !! i) as [k'|] eqn:Hk; [|done].
    injection Hret as <-. by apply list_elem_of_lookup_2 in Hk.
  - right. injection Hret as <-. split; [done|].
    destruct add; cbn [setitem_db snd set_heap set_matches self heap db]
      in Hempty.
    + exfalso. rewrite lookup_total_insert_eq in Hempty.
      by apply set_nonempty in Hempty.
    + split; [done|]. by destruct (heap st !!! db (self st)).
Qed.

(** X15.  [build_db] keeps the order of the keys, the order in which ties
    are broken: an entry that is overwritten stays in its place, a new name
    goes last. *)
Theorem build_db_keeps_key_order (img : image) name st st' :
  build_db img name st = (Ok (), st') →
  let before := heap st !!! db (self st) in
  keys (heap st' !!! db (self st')) =
  if contains before name then keys before else keys before ++ [name].
Proof.
  rewrite build_db_run.
  destruct (extract (self st) img) as [v|e]; [|done].
  intros [= <-]. cbn [set_heap self heap db].
  rewrite lookup_total_insert_eq. apply keys_set.
Qed.

(** X16.  Building the same picture under the same name twice is building
    it once: same outcome, same state. *)
Theorem build_db_twice_is_once (img : image) name st :
  build_db img name (build_db img name st).2 = build_db img name st.
Proof.
  rewrite (build_db_run img name st).
  destruct (extract (self st) img) as [v|e] eqn:Hv.
  - rewrite build_db_run. cbn [setitem_db snd set_heap self heap db].
    rewrite Hv. unfold setitem_db, set_heap.
    cbn [self heap db files module_globals].
    by rewrite lookup_total_insert_eq set_set insert_insert_eq.
  - cbn [snd]. by rewrite build_db_run Hv.
Qed.

End MoreMethods.

(* ===================================================================== *)
(** ** The methods, over sequences of calls *)
(* ===================================================================== *)

Lemma matches_grown_refl st : matches_grown st st.
Proof. by repeat split. Qed.

Lemma matches_grown_trans st1 st2 st3 :
  matches_grown st1 st2 → matches_grown st2 st3 → matches_grown st1 st3.
Proof.
  intros (? & ? & ? & ? & ? & ? & ?) (? & ? & ? & ? & ? & ? & ?).
  repeat split; try congruence. by etrans.
Qed.

Lemma record_match_grows name ds ks st :
  matches_grown st (record_match name ds ks st).2.
Proof.
  rewrite record_match_run. cbn [snd set_matches].
  repeat split; try done. cbn [self matches]. apply recorded_dom.
Qed.

(** [compare_db] touches nothing but the Match Set, whatever [key] is bound
    to. *)
Lemma compare_db_grows st : matches_grown st (compare_db st).2.
Proof.
  unfold compare_db, getattr_database. run_M.
  destruct (database (self st)) as [l|]; [|apply matches_grown_refl].
  unfold deref. run_M.
  apply for_each_preserves;
    [exact matches_grown_refl|exact matches_grown_trans|].
  intros [key1 v1] st0. run_M.
  destruct (bool_decide _); cbn [negb]; [apply matches_grown_refl|].
  destruct (distances_to_others key1 v1 _ _) as [dk|e];
    [|apply matches_grown_refl].
  pose proof (record_match_grows key1 dk.1 dk.2 st0) as Hrec.
  by destruct (record_match key1 dk.1 dk.2 st0) as [[i|e] st1].
Qed.

Lemma load_db_effect dict_file st msg st' :
  load_db dict_file st = (msg, Modelled st') →
  (msg = load_error dict_file ∧ st' = st ∧
   (files st !! dict_file = None ∨ files st !! dict_file = Some EmptyFile)) ∨
  (msg = loaded_notice ∧
   ∃ d, files st !! dict_file = Some (PickledDb d) ∧ st' = rebind_db d st).
Proof.
  unfold load_db.
  destruct (files st !! dict_file) as [[|d|m]|]; intros [= <- <-].
  - left. split; [done|]. split; [done|by right].
  - right. split; [done|by exists d].
  - left. split; [done|]. split; [done|by left].
Qed.

Lemma rebind_db_fresh d st :
  heap st !! db (self (rebind_db d st)) = None ∧
  heap (rebind_db d st) !!! db (self (rebind_db d st)) = d ∧
  ∀ l, is_Some (heap st !! l) → heap (rebind_db d st) !! l = heap st !! l.
Proof.
  cbn [rebind_db self heap db].
  assert (heap st !! fresh (dom (heap st)) = None) as Hfresh.
  { apply not_elem_of_dom, is_fresh. }
  split; [done|]. split; [by rewrite lookup_total_insert_eq|].
  intros l [d' Hl]. rewrite lookup_insert_ne; [|done]. congruence.
Qed.

Section CallSequences.

Context {image : Type} `{Cv2 image}.

Lemma method_call_frame st st' :
  method_call st st' →
  database (self st') = database (self st) ∧
  prep_scale (self st') = prep_scale (self st) ∧
  module_globals st' = module_globals st ∧
  dom (matches (self st)) ⊆ dom (matches (self st')) ∧
  (database (self st) = None → matches (self st') = matches (self st)) ∧
  (os (module_globals st) = false → files st' = files st).
Proof.
  intros [img name st0|img name add st0|st0|dict_file st0 msg st1 Hload
         |dict_file st0|dict_file st0].
  - rewrite build_db_run. by destruct (extract (self st0) img).
  - rewrite compare_with_db_run.
    destruct (extract (self st0) img) as [v|e]; [|done].
    destruct (database (self st0)) as [l|] eqn:Hattr; [|by rewrite Hattr].
    destruct (distances v (heap st0 !!! l)) as [dk|e]; [|by rewrite Hattr].
    cbn [snd]. destruct add;
      cbn [setitem_db snd set_heap set_matches self heap files
           module_globals db database prep_scale matches];
      (repeat split; try done; apply recorded_dom).
  - destruct (compare_db_grows st0) as (_ & Hattr & Hscale & _ & Hfiles & Hg & Hdom).
    repeat split; try done.
    intros Hnone. by rewrite compare_db_without_database_attribute.
  - apply load_db_effect in Hload as [(_ & -> & _)|(_ & d & _ & ->)]; done.
  - rewrite save_db_run. destruct (os (module_globals st0)); done.
  - rewrite save_matches_is_save_db save_db_run.
    destruct (os (module_globals st0)); done.
Qed.

(** X12.  Over any sequence of method calls in which every [load_db] leaves
    [db] bound to a collection (its file is missing, empty, or holds a
    pickled collection), whatever the outcomes of the calls, no name leaves
    the Match Set: an entry may be overwritten, never removed. *)
Theorem match_set_only_grows st st' :
  rtc method_call st st' →
  dom (matches (self st)) ⊆ dom (matches (self st')).
Proof.
  intros Hcalls. induction Hcalls as [st|st st1 st' Hcall _ IH]; [done|].
  apply method_call_frame in Hcall as (_ & _ & _ & Hdom & _).
  by etrans.
Qed.

(** X13.  On an instance that only has the attributes [__init__] gave it,
    no sequence of method calls in which every [load_db] leaves [db] bound
    to a collection ever records a match: the Match Set stays as it
    was. *)
Theorem unpatched_instance_never_matches st st' :
  database (self st) = None → rtc method_call st st' →
  matches (self st') = matches (self st).
Proof.
  intros Hattr Hcalls.
  induction Hcalls as [st|st st1 st' Hcall _ IH]; [done|].
  apply method_call_frame in Hcall as (Hattr1 & _ & _ & _ & Hsame & _).
  rewrite IH; [congruence|]. by apply Hsame.
Qed.

(** X14.  In the module as it is written ([os] is not imported) no sequence
    of method calls in which every [load_db] leaves [db] bound to a
    collection writes, creates or changes a file. *)
Theorem nothing_saved_without_os st st' :
  os (module_globals st) = false → rtc method_call st st' →
  files st' = files st.
Proof.
  intros Hos Hcalls.
  induction Hcalls as [st|st st1 st' Hcall _ IH]; [done|].
  apply method_call_frame in Hcall as (_ & _ & Hg & _ & _ & Hfiles).
  rewrite IH; [congruence|]. by apply Hfiles.
Qed.

(** X21.  After a successful [load_db] the instance no longer writes into
    the dictionary it was built with (the default one, or the caller's):
    what [build_db] stores afterwards does not show there. *)
Theorem load_db_unshares (img : image) name dict_file st st1 :
  is_Some (heap st !! db (self st)) →
  load_db dict_file st = (loaded_notice, Modelled st1) →
  heap (build_db img name st1).2 !! db (self st) = heap st !! db (self st).
Proof.
  intros Hold Hload.
  apply load_db_effect in Hload as [(Hmsg & _)|(_ & d & _ & ->)];
    [discriminate Hmsg|].
  destruct (rebind_db_fresh d st) as (Hfresh & _ & Hkept).
  assert (db (self st) ≠ db (self (rebind_db d st))) as Hne.
  { intros Heq. rewrite -Heq in Hfresh. rewrite Hfresh in Hold.
    by destruct Hold. }
  rewrite build_db_run.
  destruct (extract _ img) as [v|e]; cbn [snd setitem_db set_heap heap].
  - rewrite lookup_insert_ne; [done|]. by apply Hkept.
  - by apply Hkept.
Qed.

End CallSequences.

(** *** compare_db *)

Lemma distances_to_others_alone key1 v1 d g :
  Forall (λ key2, key2 = key1) (keys d) →
  distances_to_others key1 v1 d g = Ok ([], []).
Proof.
  unfold keys. induction d as [|[key2 v2] d IH]; [done|].
  cbn [map fst distances_to_others]. intros [-> Hd]%Forall_cons.
  rewrite String.eqb_refl. cbn [negb]. by apply IH.
Qed.

Lemma distances_to_others_raises key1 v1 d :
  ¬ Forall (λ key2, key2 = key1) (keys d) →
  distances_to_others key1 v1 d None = Raise NameError ∨
  distances_to_others key1 v1 d None = Raise ValueError.
Proof.
  unfold keys. induction d as [|[key2 v2] d IH]; intros Hother.
  - destruct Hother. constructor.
  - cbn [map fst distances_to_others] in Hother |- *.
    destruct (String.eqb_spec key1 key2) as [<-|Hne]; cbn [negb].
    + apply IH. intros Hd. apply Hother. by constructor.
    + destruct (distance v1 v2) as [x|e] eqn:Hx; cbn [mbind result_bind];
        [by left|].
      right. f_equal. by apply (distance_raises_ValueError v1 v2).
Qed.

(** One pass of the outer loop, [key] being unbound. *)
Lemma compare_db_pass key1 v1 d st :
  key (module_globals st) = None →
  let body : M unit :=
    self ← get_self;
    if negb (bool_decide (is_Some (matches self !! key1))) then
      g ← get_globals;
      dk ← lift (distances_to_others key1 v1 d (key g));
      _ ← record_match key1 dk.1 dk.2;
      mret ()
    else mret () in
  let alone :=
    matches (self st) !! key1 = None →
    Forall (λ key2, key2 = key1) (keys d) in
  (alone ∧ body st = (Ok (), st)) ∨
  (¬ alone ∧
   (body st = (Raise NameError, st) ∨ body st = (Raise ValueError, st))).
Proof.
  intros Hkey body alone. unfold body, alone. run_M.
  destruct (matches (self st) !! key1) as [k|] eqn:Hm.
  { rewrite bool_decide_true; [by eexists|]. left. by split. }
  rewrite bool_decide_false; [by intros [? ?]|]. cbn [negb]. rewrite Hkey.
  destruct (decide (Forall (λ key2, key2 = key1) (keys d))) as [Hall|Hother].
  - left. split; [done|]. rewrite distances_to_others_alone; [done|].
    rewrite record_match_run. cbn [fst snd]. run_M.
    unfold recorded. cbn [match_index_of Np.min mbind result_bind].
    by rewrite set_matches_same.
  - right. split; [tauto|].
    destruct (distances_to_others_raises key1 v1 d Hother) as [-> | ->];
      [by left|by right].
Qed.

Lemma M_bind_run {A B} (k : A → M B) (m : M A) st :
  (m ≫= k) st =
  match m st with
  | (Ok a, st') => k a st'
  | (Raise e, st') => (Raise e, st')
  end.
Proof. reflexivity. Qed.

(** The outer loop over the entries [xs] of the collection [d], [key] being
    unbound: it runs through when no entry has anything to be compared
    with, and raises at the first one that has. *)
Lemma compare_db_loop d xs st :
  key (module_globals st) = None →
  let alone key1 :=
    matches (self st) !! key1 = None →
    Forall (λ key2, key2 = key1) (keys d) in
  let loop :=
    for_each xs (λ '(key1, v1),
      self ← get_self;
      if negb (bool_decide (is_Some (matches self !! key1))) then
        g ← get_globals;
        dk ← lift (distances_to_others key1 v1 d (key g));
        _ ← record_match key1 dk.1 dk.2;
        mret ()
      else mret ()) in
  (Forall alone (keys xs) ∧ loop st = (Ok (), st)) ∨
  (¬ Forall alone (keys xs) ∧
   (loop st = (Raise NameError, st) ∨ loop st = (Raise ValueError, st))).
Proof.
  intros Hkey alone loop. unfold loop. clear loop.
  induction xs as [|[key1 v1] xs IH].
  - left. split; [constructor|done].
  - cbn [for_each keys map fst]. rewrite M_bind_run.
    destruct (compare_db_pass key1 v1 d st Hkey) as [[H1 ->]|[H1 Hraise]].
    + destruct IH as [[Hxs IH]|[Hxs IH]].
      * left. split; [by constructor|done].
      * right. split; [|done]. by intros [_ ?]%Forall_cons.
    + right. split; [by intros [? _]%Forall_cons|].
      destruct Hraise as [-> | ->]; [by left|by right].
Qed.

(** X17.  With [database] bound to a collection and the module as it is
    written ([key] unbound), [compare_db] returns normally exactly when
    there is nothing to compare: every key without an entry in the Match
    Set is the only key of the collection.  Otherwise it raises
    [NameError], or numpy's [ValueError] when the first pair of signatures
    has incompatible lengths.  Either way the state is unchanged. *)
Theorem compare_db_outcome st l :
  database (self st) = Some l → key (module_globals st) = None →
  let d := heap st !!! l in
  let nothing_to_compare :=
    ∀ key1, key1 ∈ keys d → matches (self st) !! key1 = None →
      ∀ key2, key2 ∈ keys d → key2 = key1 in
  (nothing_to_compare ∧ compare_db st = (Ok (), st)) ∨
  (¬ nothing_to_compare ∧
   (compare_db st = (Raise NameError, st) ∨
    compare_db st = (Raise ValueError, st))).
Proof.
  intros Hattr Hkey d nothing_to_compare.
  assert (compare_db st =
          for_each d (λ '(key1, v1),
            self ← get_self;
            if negb (bool_decide (is_Some (matches self !! key1))) then
              g ← get_globals;
              dk ← lift (distances_to_others key1 v1 d (key g));
              _ ← record_match key1 dk.1 dk.2;
              mret ()
            else mret ()) st) as ->.
  { unfold compare_db. by rewrite M_bind_run /getattr_database Hattr. }
  destruct (compare_db_loop d d st Hkey) as [[Hall Hrun]|[Hsome Hrun]].
  - left. split; [|done]. intros key1 Hin Hm key2 Hin2.
    pose proof (proj1 (Forall_forall _ _) Hall key1 Hin Hm) as Hd.
    by apply (proj1 (Forall_forall _ _) Hd key2).
  - right. split; [|done]. intros Hnothing. apply Hsome.
    apply Forall_forall. intros key1 Hin Hm.
    apply Forall_forall. intros key2 Hin2. by apply Hnothing.
Qed.

(** Two unmatched entries: the first pass raises. *)
Lemma compare_db_outcome_witness :
  let st := Examples.after (build_db Examples.flat_top "b")
              (Examples.after (build_db Examples.slope_down "a")
                              (Examples.fresh Examples.small_patched)) in
  compare_db st = (Raise NameError, st).
Proof.
  intros st.
  destruct (compare_db_outcome st 0%nat) as [[_ Hrun]|[_ [Hrun|Hrun]]];
    [vm_compute; reflexivity|vm_compute; reflexivity| | |].
  - vm_compute in Hrun. discriminate Hrun.
  - exact Hrun.
  - vm_compute in Hrun. discriminate Hrun.
Defined.

(** *** Persistence *)

(** X18.  [save_db] touches nothing but the one file: with [os] bound the
    file holds the pickled collection afterwards, whether it existed or
    not; with [os] unbound, as in the module as it is written, the call
    raises [NameError] and no file changes. *)
Theorem save_db_writes_collection_or_raises dict_file st :
  let st' := (save_db dict_file st).2 in
  self st' = self st ∧ heap st' = heap st ∧
  module_globals st' = module_globals st ∧
  (∀ f, f ≠ dict_file → files st' !! f = files st !! f) ∧
  if os (module_globals st)
  then (save_db dict_file st).1 = Ok () ∧
       files st' !! dict_file = Some (PickledDb (heap st !!! db (self st)))
  else (save_db dict_file st).1 = Raise NameError ∧ files st' = files st.
Proof.
  cbv zeta. unfold save_db, os_path_exists, load_global_os. run_M.
  destruct (os (module_globals st)); [|done].
  unfold file_present. run_M.
  case_bool_decide as Hpresent; cbn [negb]; run_M;
    unfold touch, deref, dump, set_files; cbn [self heap files fst snd
                                                module_globals].
  - repeat split; try done.
    + intros f Hf. by rewrite lookup_insert_ne.
    + by rewrite lookup_insert_eq.
  - repeat split; try done.
    + intros f Hf. rewrite lookup_insert_ne; [done|].
      destruct (files st !! dict_file); [done|]. by rewrite lookup_insert_ne.
    + by rewrite lookup_insert_eq.
Qed.

(** X19.  [load_db] never raises, and what it does is decided by the file
    alone.  A file that is missing or empty: the error message is printed
    and nothing changes.  A file that holds a pickled collection: [db] is
    bound to a new dictionary with the content of the file, and every
    dictionary that existed before keeps its content.  A file that holds a
    pickled dictionary of names: it is loaded without complaint, and [db]
    is bound to that dictionary, which is no collection of signatures.  In
    every case the Match Set, the other attributes, the files and the
    module's names are untouched. *)
Theorem load_db_rebinds_or_changes_nothing dict_file st :
  match load_db dict_file st with
  | (msg, Modelled st') =>
      database (self st') = database (self st) ∧
      prep_scale (self st') = prep_scale (self st) ∧
      matches (self st') = matches (self st) ∧
      files st' = files st ∧ module_globals st' = module_globals st ∧
      (∀ l, is_Some (heap st !! l) → heap st' !! l = heap st !! l) ∧
      ((msg = load_error dict_file ∧ st' = st ∧
        (files st !! dict_file = None ∨
         files st !! dict_file = Some EmptyFile)) ∨
       (msg = loaded_notice ∧
        files st !! dict_file
        = Some (PickledDb (heap st' !!! db (self st'))) ∧
        heap st !! db (self st') = None))
  | (msg, DbOfNames m st') =>
      msg = loaded_notice ∧ st' = st ∧
      files st !! dict_file = Some (PickledMatches m)
  end.
Proof.
  destruct (load_db dict_file st) as [msg [st'|m st']] eqn:Hload.
  - apply load_db_effect in Hload
      as [(-> & -> & Hfile)|(-> & d & Hfile & ->)].
    + repeat split; try done. by left.
    + destruct (rebind_db_fresh d st) as (Hfresh & Hnew & Hkept).
      repeat split; try done. right. by rewrite Hnew.
  - unfold load_db in Hload. revert Hload.
    by destruct (files st !! dict_file) as [[|d|m']|]; intros [= <- <- <-].
Qed.

(** A file that holds a collection, a file that does not exist, and a file
    that holds a Match Set. *)
Example load_db_three_files :
  let names : gmap string string := {[ "A" := "B"; "B" := "A" ]} in
  let st := State Examples.small class_defined
              {[ "db.pkl" := PickledDb [("A", [0; 0; 0]%float)];
                 "names.pkl" := PickledMatches names ]} imported in
  load_db "db.pkl" st
  = (loaded_notice, Modelled (rebind_db [("A", [0; 0; 0]%float)] st)) ∧
  load_db "other.pkl" st = (load_error "other.pkl", Modelled st) ∧
  load_db "names.pkl" st = (loaded_notice, DbOfNames names st).
Proof. repeat split; vm_compute; reflexivity. Qed.

(** X20.  With [os] bound, [save_db] followed by [load_db] of the same file
    succeeds and gives the collection back entry for entry, in the same
    order, in a new dictionary; the dictionaries that existed and the Match
    Set are as before. *)
Theorem save_then_load_restores_collection dict_file st :
  os (module_globals st) = true →
  ∃ st1 st2,
    save_db dict_file st = (Ok (), st1) ∧
    load_db dict_file st1 = (loaded_notice, Modelled st2) ∧
    heap st2 !!! db (self st2) = heap st !!! db (self st) ∧
    (∀ l, is_Some (heap st !! l) → heap st2 !! l = heap st !! l) ∧
    matches (self st2) = matches (self st).
Proof.
  intros Hos. rewrite save_db_run Hos.
  eexists. eexists. split; [done|].
  unfold load_db. cbn [set_files files]. rewrite lookup_insert_eq.
  split; [done|].
  destruct (rebind_db_fresh (heap st !!! db (self st))
              (set_files (<[dict_file:=PickledDb (heap st !!! db (self st))]>
                            (files st)) st)) as (_ & Hnew & Hkept).
  by rewrite Hnew.
Qed.

Lemma save_then_load_restores_collection_witness :
  let st0 := Examples.after (build_db Examples.slope_down "A")
                            (Examples.fresh Examples.small) in
  let st := State (self st0) (heap st0) (files st0) (Globals true None) in
  ∃ st1 st2,
    save_db "db.pkl" st = (Ok (), st1) ∧
    load_db "db.pkl" st1 = (loaded_notice, Modelled st2) ∧
    heap st2 !!! db (self st2) = heap st !!! db (self st) ∧
    (∀ l, is_Some (heap st !! l) → heap st2 !! l = heap st !! l) ∧
    matches (self st2) = matches (self st).
Proof.
  intros st0 st. apply save_then_load_restores_collection. reflexivity.
Defined.

(* ===================================================================== *)
(** ** Further worked calls *)
(* ===================================================================== *)

(** A stored signature of three entries, a new one of five. *)
Lemma compare_with_db_width_mismatch_witness :
  let st := State (Object 0%nat (Some 0%nat) (5, 5) ∅)
                  {[ 0%nat := [("A", [0; 0; 0]%float)] ]} ∅ imported in
  compare_with_db Examples.gappy "B" true st = (Raise ValueError, st).
Proof.
  intros st.
  eapply (compare_with_db_width_mismatch Examples.gappy "B" true st _
            0%nat "A" [0; 0; 0]%float).
  - vm_compute; reflexivity.
  - reflexivity.
  - vm_compute. left.
  - vm_compute. discriminate.
  - vm_compute. discriminate.
  - vm_compute. discriminate.
Defined.

(** "B" compared with a collection of one. *)
Lemma compare_with_db_returns_stored_name_witness :
  let st0 := Examples.after (build_db Examples.slope_down "A")
                            (Examples.fresh Examples.small_patched) in
  (∃ l, database (self st0) = Some l ∧ "A" ∈ keys (heap st0 !!! l)) ∨
  ("A" = empty_notice ∧ true = false ∧ heap st0 !!! db (self st0) = []).
Proof.
  intros st0.
  apply (compare_with_db_returns_stored_name Examples.flat_top "B" true st0
           "A" (Examples.after (compare_with_db Examples.flat_top "B" true)
                               st0)).
  vm_compute; reflexivity.
Defined.

(** A name that is already stored can be matched with itself: its own
    signature is among the candidates. *)
Example stored_name_matches_itself :
  let st0 := Examples.after (build_db Examples.slope_down "A")
                            (Examples.fresh Examples.small_patched) in
  let st1 := Examples.after (compare_with_db Examples.slope_down "A" true)
                            st0 in
  (compare_with_db Examples.slope_down "A" true st0).1 = Ok "A" ∧
  matches (self st1) !! "A" = Some "A".
Proof. split; vm_compute; reflexivity. Qed.

(** Two candidates at the same distance from the probe. *)
Lemma compare_with_db_patched_nearest_witness :
  let st0 := Examples.after (build_db Examples.slope_up "B")
               (Examples.after (build_db Examples.slope_down "A")
                               (Examples.fresh Examples.small_patched)) in
  let d := heap st0 !!! db (self st0) in
  ∃ ds i m,
    distances [0; 0; 0]%float d = Ok (ds, keys d) ∧
    keys d !! i = Some "A" ∧
    Np.min ds = Ok m ∧
    Forall (λ y, PrimFloat.ltb y m = false) ds ∧
    (∃ y, ds !! i = Some y ∧ PrimFloat.eqb y m = true) ∧
    ∀ j y, (j < i)%nat → ds !! j = Some y → PrimFloat.eqb y m = false.
Proof.
  intros st0 d.
  apply (compare_with_db_patched_nearest Examples.flat_top "probe" true st0
           [0; 0; 0]%float "A"
           (Examples.after (compare_with_db Examples.flat_top "probe" true)
                           st0)).
  - vm_compute; reflexivity.
  - reflexivity.
  - vm_compute. discriminate.
  - vm_compute; reflexivity.
Defined.

(** The entry of "B" is overwritten by the second comparison; "A" and "B"
    stay in the Match Set. *)
Lemma match_set_only_grows_witness :
  let st0 := Examples.after (build_db Examples.slope_down "A")
                            (Examples.fresh Examples.small_patched) in
  let st1 := Examples.after (compare_with_db Examples.flat_top "B" true) st0 in
  let st2 := Examples.after (compare_with_db Examples.flat_top "C" true) st1 in
  let st3 := Examples.after compare_db st2 in
  matches (self st1) !! "A" = Some "B" ∧
  dom (matches (self st1)) ⊆ dom (matches (self st3)).
Proof.
  intros st0 st1 st2 st3. split; [vm_compute; reflexivity|].
  apply (match_set_only_grows st1 st3).
  eapply rtc_l; [apply (call_compare_with_db Examples.flat_top "C" true)|].
  eapply rtc_l; [apply call_compare_db|]. apply rtc_refl.
Defined.

(** Three calls on a new instance. *)
Lemma unpatched_instance_never_matches_witness :
  let st0 := Examples.fresh Examples.small in
  let st1 := Examples.after (build_db Examples.slope_down "A") st0 in
  let st2 := Examples.after (compare_with_db Examples.flat_top "B" true) st1 in
  let st3 := Examples.after compare_db st2 in
  keys (heap st3 !!! db (self st3)) = ["A"] ∧
  matches (self st3) = matches (self st0).
Proof.
  intros st0 st1 st2 st3. split; [vm_compute; reflexivity|].
  apply (unpatched_instance_never_matches st0 st3); [reflexivity|].
  eapply rtc_l; [apply (call_build_db Examples.slope_down "A")|].
  eapply rtc_l; [apply (call_compare_with_db Examples.flat_top "B" true)|].
  eapply rtc_l; [apply call_compare_db|]. apply rtc_refl.
Defined.

(** Both saving methods, after the first entry has been built. *)
Lemma nothing_saved_without_os_witness :
  let st0 := Examples.fresh Examples.small in
  let st1 := Examples.after (build_db Examples.slope_down "A") st0 in
  let st2 := Examples.after (save_db "db.pkl") st1 in
  let st3 := Examples.after (save_matches "matches.pkl") st2 in
  files st3 = files st0.
Proof.
  intros st0 st1 st2 st3.
  apply (nothing_saved_without_os st0 st3); [reflexivity|].
  eapply rtc_l; [apply (call_build_db Examples.slope_down "A")|].
  eapply rtc_l; [apply (call_save_db "db.pkl")|].
  eapply rtc_l; [apply (call_save_matches "matches.pkl")|]. apply rtc_refl.
Defined.

(** "A" is overwritten in place, "C" is appended. *)
Lemma build_db_keeps_key_order_witness :
  let st0 := Examples.after (build_db Examples.slope_up "B")
               (Examples.after (build_db Examples.slope_down "A")
                               (Examples.fresh Examples.small)) in
  let st1 := Examples.after (build_db Examples.flat_top "A") st0 in
  let st2 := Examples.after (build_db Examples.flat_top "C") st1 in
  keys (heap st1 !!! db (self st1)) = ["A"; "B"] ∧
  keys (heap st2 !!! db (self st2)) = ["A"; "B"; "C"].
Proof.
  intros st0 st1 st2. split.
  - apply (build_db_keeps_key_order Examples.flat_top "A" st0 st1).
    vm_compute; reflexivity.
  - apply (build_db_keeps_key_order Examples.flat_top "C" st1 st2).
    vm_compute; reflexivity.
Defined.

(** An instance on the default dictionary loads a collection of one and
    builds a second entry: the default dictionary stays empty. *)
Lemma load_db_unshares_witness :
  let st := State Examples.small class_defined
              {[ "db.pkl" := PickledDb [("A", [0; 0; 0]%float)] ]} imported in
  let st1 := rebind_db [("A", [0; 0; 0]%float)] st in
  let st2 := Examples.after (build_db Examples.slope_down "B") st1 in
  keys (heap st2 !!! db (self st2)) = ["A"; "B"] ∧
  heap st2 !! db (self st) = heap st !! db (self st).
Proof.
  intros st st1 st2. split; [vm_compute; reflexivity|].
  apply (load_db_unshares Examples.slope_down "B" "db.pkl" st st1).
  - vm_compute. by eexists.
  - vm_compute; reflexivity.
Defined.
